(** * Breaking backpressure: the bounded-concurrency stream pipeline

    A shallow embedding of [articles/nodejs/breaking-backpressure/main.ts]:
    the source generator [generate], the worker [work], the admission gate
    [Semaphoreish] and the stream stage [ConcurrentTransform], followed by
    the properties of the specification, each settled against that
    embedding.

    JavaScript runs these pieces cooperatively on one thread.  An [async]
    function is therefore embedded as the sequence of its run-to-completion
    segments, one per [await]; the order in which suspended segments are
    resumed belongs to the environment (the event loop and Node's stream
    machinery) and is a label of a transition system. *)

From Stdlib Require Import ZArith Lia.
From stdpp Require Import base option list sorting gmap strings.

(** ** Values, items and completions *)

(** The JavaScript values that occur in the pipeline's records. *)
Inductive value :=
| VUndefined
| VNum (n : Z).

#[global] Instance value_eq_dec : EqDecision value.
Proof. solve_decision. Defined.

(** An item is a plain object: a finite map from property names to values. *)
Abbreviation Item := (gmap string value).

(** [chunk.id]: reading a missing property gives [undefined]. *)
Definition get_prop (k : string) (o : Item) : value :=
  default VUndefined (o !! k).

(** How a call ends: normally with a value, or by throwing / rejecting. *)
Inductive completion (A : Type) :=
| Normal (a : A)
| Throw (e : string).
Arguments Normal {A} a.
Arguments Throw {A} e.

Definition cbind {A B} (c : completion A) (k : A -> completion B) : completion B :=
  match c with
  | Normal a => k a
  | Throw e => Throw e
  end.

Notation "'let*' x ':=' c 'in' k" := (cbind c (fun x => k))
  (at level 10, x pattern, c at level 100, k at level 200, only parsing).

(** ** [generate] *)

(** What [next()] on the generator object answers:
    [{value, done: false}] or [{value: undefined, done: true}]. *)
Inductive IteratorResult :=
| Yielded (v : Item)
| Done.

(** Where the generator body is parked between two calls of [next()]. *)
Inductive GeneratorState :=
| SuspendedStart
| SuspendedYield (n : Z)
| Completed.

(** The loop test [n < size] followed by [yield { id: n }] or [return]. *)
Definition generate_loop (size n : Z) : IteratorResult * GeneratorState :=
  if (n <? size)%Z
  then (Yielded {[ "id" := VNum n ]}, SuspendedYield n)
  else (Done, Completed).

(** The largest count a JavaScript number, a double, can still step past
    by one: 2^53. *)
Definition max_exact : Z := 9007199254740992.

(** [++n] on the loop counter.  The counter is a double holding an integer
    that starts at 0: below 2^53 the increment is exact; at 2^53 the sum
    2^53 + 1 is not a double and rounds back to 2^53, so the counter stays
    where it is. *)
Definition increment (n : Z) : Z :=
  if (n <? max_exact)%Z then (n + 1)%Z else n.

(** One call of [next()]: from the start [n = 0]; after a [yield], [++n]. *)
Definition generate (size : Z) (g : GeneratorState)
  : IteratorResult * GeneratorState :=
  match g with
  | SuspendedStart => generate_loop size 0
  | SuspendedYield n => generate_loop size (increment n)
  | Completed => (Done, Completed)
  end.

(** A consumer pulling until exhaustion ([Readable.from] does this), with a
    bound on the number of pulls; [None] when the bound is hit first. *)
Fixpoint drain (size : Z) (fuel : nat) (g : GeneratorState)
  : option (list Item * GeneratorState) :=
  match fuel with
  | O => None
  | S fuel' =>
      match generate size g with
      | (Yielded v, g') =>
          match drain size fuel' g' with
          | Some (vs, g'') => Some (v :: vs, g'')
          | None => None
          end
      | (Done, g') => Some ([], g')
      end
  end.

(** ** [work] *)

(** [number | Promise<number>]: the clock value read at once, or a promise
    that the one-millisecond timer resolves with the clock read then. *)
Inductive work_result :=
| Immediate (t : Z)
| Deferred.

(** [id % 8 === 0]; the remainder of [undefined] is [NaN]. *)
Definition divisible_by_8 (id : value) : bool :=
  match id with
  | VNum n => (Z.rem n 8 =? 0)%Z
  | VUndefined => false
  end.

Definition work (id : value) (now : Z) : work_result :=
  if divisible_by_8 id then Deferred else Immediate now.

(** ** [Semaphoreish] *)

(** A resolver is the [resolve] function of the promise a suspended
    [acquire] awaits; it is identified by the call it belongs to. *)
Abbreviation Resolver := nat.

Record Semaphoreish := {
  _running : Z;
  _size : Z;
  _resolvers : list Resolver
}.

Definition new_Semaphoreish (size : Z) : Semaphoreish :=
  {| _running := 0; _size := size; _resolvers := [] |}.

Definition running (s : Semaphoreish) : Z := _running s.

(** Whether [acquire] ran to its end or is parked on its [await]. *)
Inductive acquire_state :=
| AcquireDone
| AcquireAwait.

(** The tail of [acquire], after the [if]: [this._running++]. *)
Definition acquire_resume (s : Semaphoreish) : completion Semaphoreish :=
  Normal {| _running := _running s + 1;
            _size := _size s;
            _resolvers := _resolvers s |}.

(** [acquire()] up to its first suspension.  [resolver] names the promise
    created for this call. *)
Definition acquire (resolver : Resolver) (s : Semaphoreish)
  : completion (Semaphoreish * acquire_state) :=
  if (_size s <=? _running s)%Z
  then Normal ({| _running := _running s;
                  _size := _size s;
                  _resolvers := _resolvers s ++ [resolver] |}, AcquireAwait)
  else let* s' := acquire_resume s in Normal (s', AcquireDone).

(** [release()]: the decrement, then [shift()] and the call of the resolver
    when there is one.  The resolver called is returned to the scheduler. *)
Definition release (s : Semaphoreish)
  : completion (Semaphoreish * option Resolver) :=
  match _resolvers s with
  | [] =>
      Normal ({| _running := _running s - 1;
                 _size := _size s;
                 _resolvers := [] |}, None)
  | next :: rest =>
      Normal ({| _running := _running s - 1;
                 _size := _size s;
                 _resolvers := rest |}, Some next)
  end.

(** ** A gate shared by arbitrary callers *)

Module Gate.

(** The gate, the number of [acquire] calls so far (a call is named by its
    rank), the callers whose resolver was called and whose continuation
    waits in the microtask queue, the callers in the order in which their
    [acquire] performed [_running++], and the number of [release] calls. *)
Record Run := {
  gate : Semaphoreish;
  issued : nat;
  microtasks : list Resolver;
  admitted : list nat;
  released : nat
}.

Definition init (size : Z) : Run :=
  {| gate := new_Semaphoreish size;
     issued := 0;
     microtasks := [];
     admitted := [];
     released := 0 |}.

Inductive Call :=
| CallAcquire
| CallRelease
| RunMicrotask.

#[global] Instance Call_eq_dec : EqDecision Call.
Proof. solve_decision. Defined.

Definition step (c : Call) (g : Run) : completion Run :=
  match c with
  | CallAcquire =>
      let me := issued g in
      let* (s, st) := acquire me (gate g) in
      Normal {| gate := s;
                issued := S me;
                microtasks := microtasks g;
                admitted := match st with
                            | AcquireDone => admitted g ++ [me]
                            | AcquireAwait => admitted g
                            end;
                released := released g |}
  | CallRelease =>
      let* (s, next) := release (gate g) in
      Normal {| gate := s;
                issued := issued g;
                microtasks := microtasks g ++ option_list next;
                admitted := admitted g;
                released := S (released g) |}
  | RunMicrotask =>
      match microtasks g with
      | [] => Normal g
      | me :: rest =>
          let* s := acquire_resume (gate g) in
          Normal {| gate := s;
                    issued := issued g;
                    microtasks := rest;
                    admitted := admitted g ++ [me];
                    released := released g |}
      end
  end.

Fixpoint exec (cs : list Call) (g : Run) : completion Run :=
  match cs with
  | [] => Normal g
  | c :: cs' => let* g' := step c g in exec cs' g'
  end.

(** Every caller so far is in exactly one place: admitted, woken and
    waiting for its continuation, or suspended in the queue. *)
Definition line (g : Run) : list nat :=
  admitted g ++ microtasks g ++ _resolvers (gate g).

(** How many of the calls are calls of [release]. *)
Definition count_releases (cs : list Call) : nat :=
  length (List.filter (fun c => bool_decide (c = CallRelease)) cs).

(** How many of the calls are calls of [acquire]. *)
Definition count_acquires (cs : list Call) : nat :=
  length (List.filter (fun c => bool_decide (c = CallAcquire)) cs).

(** Nobody calls [acquire] while a woken waiter has yet to resume: every
    [acquire] of the run finds the microtask queue empty. *)
Fixpoint paced (cs : list Call) (g : Run) : bool :=
  match cs with
  | [] => true
  | c :: cs' =>
      match c with
      | CallAcquire => bool_decide (microtasks g = [])
      | CallRelease | RunMicrotask => true
      end
      && match step c g with
         | Normal g' => paced cs' g'
         | Throw _ => false
         end
  end.

End Gate.

(** Holders of the gate: admitted and not yet released. *)
Definition holders (g : Gate.Run) : Z :=
  (Z.of_nat (length (Gate.admitted g)) - Z.of_nat (Gate.released g))%Z.

(** ** [ConcurrentTransform] *)

Module Stage.

(** Where one activation of [_transform] is parked. *)
Inductive PC :=
| InAcquire          (* inside [acquire], awaiting the resolver's promise *)
| AcquireWoken       (* resolver called; the tail of [acquire] is queued *)
| AfterAcquire       (* [acquire] returned; [_transform] resumes next *)
| AwaitWork (partial : Item) (w : work_result)
                     (* [callback()] done, [{...chunk}] copied, [work] called *)
| Returned.

Record Activation := {
  chunk : Item;
  pc : PC
}.

(** What the stage does that its surroundings can observe, in order. *)
Inductive Event :=
| EvAcquired (i : nat)            (* [_running++] on behalf of activation [i] *)
| EvCallback (i : nat)            (* [callback()] *)
| EvWork (i : nat)                (* [work(chunk.id)] called *)
| EvSettled (i : nat) (r : Z)     (* the awaited worker value is [r] *)
| EvPush (i : nat) (x : Item)     (* [this.push(x)] *)
| EvData (i : nat) (x : Item)     (* 'data' emitted with [x] to the listeners,
                                     the consumer's among them *)
| EvRelease                       (* [this._semaphore.release()] *)
| EvOnFinal.                      (* [this.onFinal()] *)

(** The object's own fields [onFinal] (whether [_final] has stored its
    callback; [undefined] until then) and [_semaphore], and what the
    surrounding machinery holds: the activations of [_transform] by rank,
    the writable side's flag that a chunk is out and its callback pending,
    the readable side's flowing flag and buffer, and the event log. *)
Record ConcurrentTransform := {
  onFinal : bool;
  _semaphore : Semaphoreish;
  calls : list Activation;
  writing : bool;
  flowing : bool;
  buffer : list (nat * Item);
  log : list Event
}.

(** [new ConcurrentTransform()], the gate sized by [readableHighWaterMark];
    registering the 'data' listener puts the readable side in flowing mode. *)
Definition new_ConcurrentTransform (readableHighWaterMark : Z)
  : ConcurrentTransform :=
  {| onFinal := false;
     _semaphore := new_Semaphoreish readableHighWaterMark;
     calls := [];
     writing := false;
     flowing := true;
     buffer := [];
     log := [] |}.

Definition emit (e : Event) (t : ConcurrentTransform) : ConcurrentTransform :=
  {| onFinal := onFinal t; _semaphore := _semaphore t; calls := calls t;
     writing := writing t; flowing := flowing t; buffer := buffer t;
     log := log t ++ [e] |}.

Definition set_pc (i : nat) (p : PC) (t : ConcurrentTransform)
  : ConcurrentTransform :=
  {| onFinal := onFinal t; _semaphore := _semaphore t;
     calls := alter (fun a => {| chunk := chunk a; pc := p |}) i (calls t);
     writing := writing t; flowing := flowing t; buffer := buffer t;
     log := log t |}.

Definition set_semaphore (s : Semaphoreish) (t : ConcurrentTransform)
  : ConcurrentTransform :=
  {| onFinal := onFinal t; _semaphore := s; calls := calls t;
     writing := writing t; flowing := flowing t; buffer := buffer t;
     log := log t |}.

Definition set_buffer (b : list (nat * Item)) (t : ConcurrentTransform)
  : ConcurrentTransform :=
  {| onFinal := onFinal t; _semaphore := _semaphore t; calls := calls t;
     writing := writing t; flowing := flowing t; buffer := b;
     log := log t |}.

Definition set_flowing (b : bool) (t : ConcurrentTransform)
  : ConcurrentTransform :=
  {| onFinal := onFinal t; _semaphore := _semaphore t; calls := calls t;
     writing := writing t; flowing := b; buffer := buffer t;
     log := log t |}.

(** [_checkDone()] *)
Definition _checkDone (t : ConcurrentTransform) : completion ConcurrentTransform :=
  if (running (_semaphore t) =? 0)%Z && onFinal t
  then Normal (emit EvOnFinal t)
  else Normal t.

(** Calling a resolver settles the promise its [acquire] awaits. *)
Definition wake (next : option Resolver) (t : ConcurrentTransform)
  : ConcurrentTransform :=
  match next with
  | Some i => set_pc i AcquireWoken t
  | None => t
  end.

(** The listener of the constructor:
    [this.on("data", (_) => { this._semaphore.release(); this._checkDone(); })] *)
Definition on_data (t : ConcurrentTransform) : completion ConcurrentTransform :=
  let* (s, next) := release (_semaphore t) in
  _checkDone (wake next (emit EvRelease (set_semaphore s t))).

(** The readable side emits 'data' with a chunk: the listeners run at once,
    within the emission, the constructor's being the first registered. *)
Definition emit_data (ix : nat * Item) (t : ConcurrentTransform)
  : completion ConcurrentTransform :=
  on_data (emit (EvData ix.1 ix.2) t).

(** [this.push(x)] of the readable side: in flowing mode with nothing
    buffered the chunk is emitted at once, otherwise it is buffered. *)
Definition push (i : nat) (x : Item) (t : ConcurrentTransform)
  : completion ConcurrentTransform :=
  let t0 := emit (EvPush i x) t in
  if flowing t0 && bool_decide (buffer t0 = [])
  then emit_data (i, x) t0
  else Normal (set_buffer (buffer t0 ++ [(i, x)]) t0).

(** [_final(callback)] *)
Definition _final (t : ConcurrentTransform) : completion ConcurrentTransform :=
  _checkDone {| onFinal := true; _semaphore := _semaphore t; calls := calls t;
                writing := writing t; flowing := flowing t;
                buffer := buffer t; log := log t |}.

(** [callback()]: the writable side may hand over the next chunk. *)
Definition callback (i : nat) (t : ConcurrentTransform) : ConcurrentTransform :=
  emit (EvCallback i)
    {| onFinal := onFinal t; _semaphore := _semaphore t; calls := calls t;
       writing := false; flowing := flowing t; buffer := buffer t;
       log := log t |}.

(** [_transform(chunk, _encoding, callback)] up to [await acquire()]. *)
Definition _transform (c : Item) (t : ConcurrentTransform)
  : completion ConcurrentTransform :=
  let i := length (calls t) in
  let* (s, st) := acquire i (_semaphore t) in
  let t1 := set_semaphore s t in
  Normal
    match st with
    | AcquireDone =>
        emit (EvAcquired i)
          {| onFinal := onFinal t1; _semaphore := _semaphore t1;
             calls := calls t1 ++ [{| chunk := c; pc := AfterAcquire |}];
             writing := writing t1; flowing := flowing t1;
             buffer := buffer t1; log := log t1 |}
    | AcquireAwait =>
        {| onFinal := onFinal t1; _semaphore := _semaphore t1;
           calls := calls t1 ++ [{| chunk := c; pc := InAcquire |}];
           writing := writing t1; flowing := flowing t1;
           buffer := buffer t1; log := log t1 |}
    end.

(** The tail of [acquire] run for activation [i] once its resolver was
    called. *)
Definition acquire_continue (i : nat) (t : ConcurrentTransform)
  : completion ConcurrentTransform :=
  let* s := acquire_resume (_semaphore t) in
  Normal (set_pc i AfterAcquire (emit (EvAcquired i) (set_semaphore s t))).

(** [_transform] from [callback()] to the [await] on the worker: the object
    literal copies [chunk]'s properties, then [work(chunk.id)] is called. *)
Definition _transform_after_acquire (i : nat) (now : Z) (t : ConcurrentTransform)
  : completion ConcurrentTransform :=
  match calls t !! i with
  | Some a =>
      let t1 := callback i t in
      let partial := chunk a in
      let w := work (get_prop "id" (chunk a)) now in
      Normal (set_pc i (AwaitWork partial w) (emit (EvWork i) t1))
  | None => Normal t
  end.

(** [_transform] from the settled worker value to its end:
    [this.push({ ...chunk, changedAt: r }); this._checkDone();] *)
Definition _transform_after_work (i : nat) (now : Z) (t : ConcurrentTransform)
  : completion ConcurrentTransform :=
  match pc <$> calls t !! i with
  | Some (AwaitWork partial w) =>
      let r := match w with Immediate v => v | Deferred => now end in
      let* t1 := push i (<[ "changedAt" := VNum r ]> partial)
                   (emit (EvSettled i r) t) in
      let* t2 := _checkDone t1 in
      Normal (set_pc i Returned t2)
  | _ => Normal t
  end.

(** The readable side hands the oldest buffered chunk to the listeners. *)
Definition flow (t : ConcurrentTransform) : completion ConcurrentTransform :=
  match buffer t with
  | ix :: rest => emit_data ix (set_buffer rest t)
  | [] => Normal t
  end.

(** *** The environment: what may happen next *)

Inductive Label :=
| Write (c : Item)                    (* the writable side calls [_transform] *)
| Final                               (* the writable side calls [_final] *)
| ResumeAcquire (i : nat)             (* a woken [acquire] continues *)
| ResumeTransform (i : nat) (now : Z) (* [_transform] continues after [acquire] *)
| SettleWork (i : nat) (now : Z)      (* the worker's value arrives *)
| Flow                                (* a buffered chunk is read *)
| Pause                               (* the consumer signals back-pressure *)
| Resume.                             (* the consumer drained *)

Definition pc_of (i : nat) (t : ConcurrentTransform) : option PC :=
  pc <$> calls t !! i.

(** Node's contract for a writable side: one chunk at a time, the next one
    only after [callback()]; [_final] once, after the last chunk's
    [callback()], and no chunk after it.  A continuation runs only where
    its activation is parked.  When a parked continuation runs is left
    open: the event loop resumes an awaited plain value within the same
    drain of the microtask queue, so the runs allowed here include all
    those of the event loop and more.  What holds of every run allowed
    here holds of every run of the code; a run exhibited here is one of
    the code's only where its schedule is one the event loop can follow. *)
Definition enabled (l : Label) (t : ConcurrentTransform) : bool :=
  match l with
  | Write _ => negb (writing t) && negb (onFinal t)
  | Final => negb (writing t) && negb (onFinal t)
  | ResumeAcquire i =>
      match pc_of i t with Some AcquireWoken => true | _ => false end
  | ResumeTransform i _ =>
      match pc_of i t with Some AfterAcquire => true | _ => false end
  | SettleWork i _ =>
      match pc_of i t with Some (AwaitWork _ _) => true | _ => false end
  | Flow => flowing t && negb (bool_decide (buffer t = []))
  | Pause | Resume => true
  end.

Definition handle (l : Label) (t : ConcurrentTransform)
  : completion ConcurrentTransform :=
  match l with
  | Write c =>
      let* t1 := _transform c t in
      Normal {| onFinal := onFinal t1; _semaphore := _semaphore t1;
                calls := calls t1; writing := true; flowing := flowing t1;
                buffer := buffer t1; log := log t1 |}
  | Final => _final t
  | ResumeAcquire i => acquire_continue i t
  | ResumeTransform i now => _transform_after_acquire i now t
  | SettleWork i now => _transform_after_work i now t
  | Flow => flow t
  | Pause => Normal (set_flowing false t)
  | Resume => Normal (set_flowing true t)
  end.

Definition step (l : Label) (t : ConcurrentTransform)
  : option ConcurrentTransform :=
  if enabled l t
  then match handle l t with
       | Normal t' => Some t'
       | Throw _ => None
       end
  else None.

Fixpoint run (ls : list Label) (t : ConcurrentTransform)
  : option ConcurrentTransform :=
  match ls with
  | [] => Some t
  | l :: ls' =>
      match step l t with
      | Some t' => run ls' t'
      | None => None
      end
  end.

(** *** Readings of the event log *)

Definition acquired (lg : list Event) : list nat :=
  omap (fun e => match e with EvAcquired i => Some i | _ => None end) lg.

Definition pushed (lg : list Event) : list (nat * Item) :=
  omap (fun e => match e with EvPush i x => Some (i, x) | _ => None end) lg.

Definition sunk (lg : list Event) : list (nat * Item) :=
  omap (fun e => match e with EvData i x => Some (i, x) | _ => None end) lg.

Definition releases (lg : list Event) : nat :=
  length (omap (fun e => match e with EvRelease => Some tt | _ => None end) lg).

Definition fired (lg : list Event) : nat :=
  length (omap (fun e => match e with EvOnFinal => Some tt | _ => None end) lg).

(** The events of one activation. *)
Definition about (i : nat) (e : Event) : bool :=
  match e with
  | EvAcquired j | EvCallback j | EvWork j | EvSettled j _ | EvPush j _ =>
      bool_decide (j = i)
  | EvData _ _ | EvRelease | EvOnFinal => false
  end.

Definition events_of (i : nat) (lg : list Event) : list Event :=
  List.filter (about i) lg.

(** The chunks handed over by the writable side along a run. *)
Definition written (ls : list Label) : list Item :=
  omap (fun l => match l with Write c => Some c | _ => None end) ls.

(** *** What holds between any two steps of a run *)

(** The activation has not yet passed [callback()]. *)
Definition pre_callback (p : PC) : Prop :=
  match p with
  | InAcquire | AcquireWoken | AfterAcquire => True
  | AwaitWork _ _ | Returned => False
  end.

(** The events an activation has produced, by where it is parked. *)
Definition trail (i : nat) (a : Activation) (lg : list Event) : Prop :=
  match pc a with
  | InAcquire | AcquireWoken => events_of i lg = []
  | AfterAcquire => events_of i lg = [EvAcquired i]
  | AwaitWork _ _ => events_of i lg = [EvAcquired i; EvCallback i; EvWork i]
  | Returned =>
      exists r,
        events_of i lg
        = [EvAcquired i; EvCallback i; EvWork i; EvSettled i r;
           EvPush i (<[ "changedAt" := VNum r ]> (chunk a))]
  end.

Record Inv (t : ConcurrentTransform) : Prop := {
  inv_trail : forall i a, calls t !! i = Some a -> trail i a (log t);
  inv_fresh : forall i, length (calls t) <= i -> events_of i (log t) = [];
  inv_serial : forall i a,
      calls t !! i = Some a -> pre_callback (pc a) ->
      writing t = true /\ S i = length (calls t);
  inv_queue : forall j,
      j ∈ _resolvers (_semaphore t) ->
      _resolvers (_semaphore t) = [j]
      /\ pc <$> calls t !! j = Some InAcquire;
  inv_final : onFinal t = true -> writing t = false;
  inv_partial : forall i a p w,
      calls t !! i = Some a -> pc a = AwaitWork p w -> p = chunk a;
  inv_acquired_once : NoDup (acquired (log t));
  inv_pushed_once : NoDup (pushed (log t)).*1;
  inv_buffer : pushed (log t) = sunk (log t) ++ buffer t;
  inv_releases : releases (log t) = length (sunk (log t));
  inv_running :
    _running (_semaphore t)
    = (Z.of_nat (length (acquired (log t))) - Z.of_nat (releases (log t)))%Z
}.

(** Once the completion callback has been called, [_final] has stored it
    and the gate counts nobody. *)
Definition Quiet (t : ConcurrentTransform) : Prop :=
  0 < fired (log t) ->
  onFinal t = true /\ _running (_semaphore t) = 0%Z.

(** The gate within its capacity, with room left for a woken waiter. *)
Definition Capped (t : ConcurrentTransform) : Prop :=
  (_running (_semaphore t) <= _size (_semaphore t))%Z
  /\ forall i a,
       calls t !! i = Some a -> pc a = AcquireWoken ->
       (_running (_semaphore t) + 1 <= _size (_semaphore t))%Z.

(** The settled worker value recorded, the enriched item pushed and put in
    the buffer. *)
Definition settled (i : nat) (r : Z) (x : Item) (t : ConcurrentTransform)
  : ConcurrentTransform :=
  set_buffer (buffer t ++ [(i, x)])
    (emit (EvPush i x) (emit (EvSettled i r) (set_pc i Returned t))).

(** The last segment of [_transform] with the activation marked as
    returned at the start of the segment instead of at its end.  The two
    arrangements give the same state wherever the waiter a release wakes
    is another activation, which the invariant ensures; the proofs follow
    this one, whose stages each keep the invariant. *)
Definition after_work_marked_first (i : nat) (now : Z) (t : ConcurrentTransform)
  : completion ConcurrentTransform :=
  match pc <$> calls t !! i with
  | Some (AwaitWork partial w) =>
      let r := match w with Immediate v => v | Deferred => now end in
      let* t1 := push i (<[ "changedAt" := VNum r ]> partial)
                   (emit (EvSettled i r) (set_pc i Returned t)) in
      _checkDone t1
  | _ => Normal t
  end.

(** What a log shows when all of [n] activations have been served: each
    has pushed exactly once, the items emitted are the items pushed, and
    there have been as many releases as acquisitions. *)
Definition all_served (n : nat) (lg : list Event) : Prop :=
  (pushed lg).*1 ≡ₚ seq 0 n
  /\ sunk lg = pushed lg
  /\ releases lg = length (acquired lg).

(** Every call of the completion callback in the log comes after all [n]
    activations have been served. *)
Definition Called (n : nat) (lg : list Event) : Prop :=
  forall pre post, lg = pre ++ EvOnFinal :: post -> all_served n pre.

(** The order of one activation's events. *)
Definition course (i : nat) (r : Z) (x : Item) : list Event :=
  [EvAcquired i; EvCallback i; EvWork i; EvSettled i r; EvPush i x].

(** *** Sample runs *)

(** One item, the worker settled and the item pushed before [_final]. *)
Definition run_settled_then_final : list Label :=
  [Write {[ "id" := VNum 1 ]}; ResumeTransform 0 100; SettleWork 0 100; Final].

(** One item, [_final] called while its worker is outstanding. *)
Definition run_final_then_settled : list Label :=
  [Write {[ "id" := VNum 0 ]}; ResumeTransform 0 100; Final; SettleWork 0 101].

(** One item admitted, then back-pressure from the consumer. *)
Definition run_paused : list Label :=
  [Write {[ "id" := VNum 0 ]}; ResumeTransform 0 100; Pause].

(** One item pushed while the consumer is paused, then read once the
    consumer resumes. *)
Definition run_paused_then_read : list Label :=
  run_paused ++ [SettleWork 0 101; Resume; Flow].

(** *** Schedules for any input *)

(** The chunks written one after the other, each admitted and its worker
    called before the next is written; no worker settles meanwhile.  The
    activations are numbered from [k], the clock read for activation [j] is
    [clock j]. *)
Fixpoint admit_all (k : nat) (cs : list Item) (clock : nat -> Z) : list Label :=
  match cs with
  | [] => []
  | c :: cs' =>
      Write c :: ResumeTransform k (clock k) :: admit_all (S k) cs' clock
  end.

(** The chunks written one after the other, each one's worker settled
    before the next is written. *)
Fixpoint one_by_one (k : nat) (cs : list Item) (clock : nat -> Z) : list Label :=
  match cs with
  | [] => []
  | c :: cs' =>
      Write c :: ResumeTransform k (clock k) :: SettleWork k (clock k)
        :: one_by_one (S k) cs' clock
  end.

(** Whether the step emits 'data': the reading of a buffered chunk does,
    and so does the settling of a worker when the readable side is flowing
    with nothing buffered; a settling that only buffers does not. *)
Definition emits (l : Label) (t : ConcurrentTransform) : bool :=
  match l with
  | SettleWork _ _ => flowing t && bool_decide (buffer t = [])
  | Flow => true
  | Write _ | Final | ResumeAcquire _ | ResumeTransform _ _ | Pause | Resume =>
      false
  end.

(** No step of the run emits 'data'. *)
Fixpoint no_emission (ls : list Label) (t : ConcurrentTransform) : bool :=
  match ls with
  | [] => true
  | l :: ls' =>
      negb (emits l t)
      && match step l t with
         | Some t' => no_emission ls' t'
         | None => true
         end
  end.

(** The enrichment [{ ...chunk, changedAt: r }]. *)
Definition enrich (r : Z) (c : Item) : Item :=
  <[ "changedAt" := VNum r ]> c.

End Stage.

(** * Properties *)

(** ** The source generator *)

Section generate_facts.
Variable size : Z.

Lemma increment_exact (n : Z) : (n < max_exact)%Z -> increment n = (n + 1)%Z.
Proof.
  intros Hn. unfold increment. by destruct (Z.ltb_spec n max_exact); [|lia].
Qed.

Lemma drain_start fuel :
  drain size fuel SuspendedStart = drain size fuel (SuspendedYield (-1)).
Proof. destruct fuel; reflexivity. Qed.

Lemma drain_after_yield (m : nat) :
  forall (n : Z) (fuel : nat),
    (n + 1 + Z.of_nat m = size)%Z ->
    (size <= max_exact)%Z ->
    (m < fuel)%nat ->
    drain size fuel (SuspendedYield n)
    = Some (map (fun k => {[ "id" := VNum (n + 1 + Z.of_nat k) ]}) (seq 0 m),
            Completed).
Proof.
  induction m as [|m IH]; intros n fuel Hsz Hmax Hfuel.
  - destruct fuel as [|fuel]; [lia|].
    cbn [drain generate]. rewrite increment_exact by lia.
    unfold generate_loop.
    destruct (Z.ltb_spec (n + 1) size) as [Hlt|Hge]; [lia|reflexivity].
  - destruct fuel as [|fuel]; [lia|].
    cbn [drain generate]. rewrite increment_exact by lia.
    unfold generate_loop.
    destruct (Z.ltb_spec (n + 1) size) as [Hlt|Hge]; [|lia].
    rewrite (IH (n + 1)%Z fuel) by lia.
    cbn [seq map]. rewrite <- seq_shift, map_map.
    do 3 f_equal.
    + do 2 f_equal. lia.
    + apply map_ext. intros k. do 2 f_equal. lia.
Qed.

(** With a size beyond 2^53 + 1 the counter never reaches the size. *)
Lemma drain_stuck (fuel : nat) :
  forall g,
    (max_exact + 1 < size)%Z ->
    (g = SuspendedStart
     \/ exists n, g = SuspendedYield n /\ (n <= max_exact)%Z) ->
    drain size fuel g = None.
Proof.
  induction fuel as [|fuel IH]; intros g Hsize Hg; [reflexivity|].
  cbn [drain].
  assert (Hstep : exists k, (k <= max_exact)%Z
            /\ generate size g
               = (Yielded {[ "id" := VNum k ]}, SuspendedYield k)).
  { destruct Hg as [->|(n & -> & Hn)]; simpl; unfold generate_loop.
    - exists 0%Z. split; [by unfold max_exact|].
      by destruct (Z.ltb_spec 0 size); [|unfold max_exact in *; lia].
    - exists (increment n). unfold increment.
      destruct (Z.ltb_spec n max_exact).
      + split; [lia|]. by destruct (Z.ltb_spec (n + 1) size); [|lia].
      + split; [lia|]. by destruct (Z.ltb_spec n size); [|lia]. }
  destruct Hstep as (k & Hk & ->).
  rewrite (IH (SuspendedYield k)); [done|done|eauto].
Qed.
End generate_facts.

(** C10, as the code has it.  For an integer size with
    [0 <= size <= 2^53], pulling [generate(size)] to exhaustion (any bound
    above [size] pulls suffices) yields exactly [size] items, the k-th
    being the record [{id: k}] for k = 0 .. size-1, in increasing id order;
    the generator then is completed, and a completed generator answers
    [done], an answer distinct from every yielded value. *)
Theorem generate_yields_ids (size : Z) (fuel : nat) :
  (0 <= size)%Z ->
  (size <= max_exact)%Z ->
  (Z.to_nat size < fuel)%nat ->
  let items := map (fun k => ({[ "id" := VNum (Z.of_nat k) ]} : Item))
                 (seq 0 (Z.to_nat size)) in
  drain size fuel SuspendedStart = Some (items, Completed)
  /\ Z.of_nat (length items) = size
  /\ (forall k : nat, (k < Z.to_nat size)%nat ->
        items !! k = Some {[ "id" := VNum (Z.of_nat k) ]})
  /\ generate size Completed = (Done, Completed)
  /\ (forall v, Yielded v <> Done).
Proof.
  intros Hsize Hmax Hfuel items. repeat split.
  - rewrite drain_start.
    rewrite (drain_after_yield size (Z.to_nat size)) by lia.
    reflexivity.
  - subst items. rewrite length_map, length_seq. lia.
  - intros k Hk. subst items.
    rewrite list_lookup_fmap, lookup_seq_lt by lia. reflexivity.
  - discriminate.
Qed.

Lemma generate_yields_ids_witness :
  drain 3 4 SuspendedStart
  = Some ([ {[ "id" := VNum 0 ]}; {[ "id" := VNum 1 ]}; {[ "id" := VNum 2 ]} ],
          Completed).
Proof.
  pose proof (generate_yields_ids 3 4 ltac:(lia) ltac:(by unfold max_exact)
                ltac:(simpl; lia)) as H.
  exact (proj1 H).
Defined.

(** C10, refuted as stated: for the integer size 2^53 + 2 no number of
    pulls exhausts the generator; once the counter is at 2^53 every pull
    yields the record [{id: 2^53}] again and leaves the counter there. *)
Lemma generate_never_done_beyond_exact :
  (~ exists fuel r, drain (max_exact + 2) fuel SuspendedStart = Some r)
  /\ generate (max_exact + 2) (SuspendedYield max_exact)
     = (Yielded {[ "id" := VNum max_exact ]}, SuspendedYield max_exact).
Proof.
  split; [|reflexivity].
  intros (fuel & r & Hr).
  rewrite (drain_stuck (max_exact + 2) fuel SuspendedStart) in Hr;
    [discriminate|lia|by left].
Qed.

(** ** The gate on its own *)

(** What [release] does to the gate, on any state. *)
Lemma release_effect (s : Semaphoreish) :
  exists s' next,
    release s = Normal (s', next)
    /\ _running s' = (_running s - 1)%Z
    /\ _size s' = _size s
    /\ next = head (_resolvers s)
    /\ _resolvers s' = tail (_resolvers s).
Proof.
  unfold release. destruct (_resolvers s) as [|next rest]; eauto 10.
Qed.

(** C8, as the code has it.  [release] has no check: on every gate state it
    ends normally, having lowered [_running] by one whatever its value, and
    having taken the oldest resolver, if any, off the queue and called it. *)
Theorem release_unchecked (s : Semaphoreish) :
  (forall e, release s <> Throw e)
  /\ exists s' next,
       release s = Normal (s', next)
       /\ _running s' = (_running s - 1)%Z
       /\ _size s' = _size s
       /\ next = head (_resolvers s)
       /\ _resolvers s' = tail (_resolvers s).
Proof.
  split; [|apply release_effect].
  intros e. unfold release. destruct (_resolvers s); discriminate.
Qed.

(** C8, refuted as stated: a release on a fresh gate, which nobody
    acquired, raises nothing and leaves [_running] at -1. *)
Lemma release_without_acquire_unnoticed :
  (forall e, release (new_Semaphoreish 1) <> Throw e)
  /\ exists s next,
       release (new_Semaphoreish 1) = Normal (s, next)
       /\ (_running s < 0)%Z.
Proof.
  split; [discriminate|].
  eexists _, _. split; [reflexivity|]. simpl. lia.
Qed.

Module GateFacts.
Import Gate.

Lemma exec_app cs1 cs2 g :
  exec (cs1 ++ cs2) g = (let* g1 := exec cs1 g in exec cs2 g1).
Proof.
  revert g. induction cs1 as [|c cs1 IH]; intros g; simpl; [reflexivity|].
  destruct (step c g) as [g'|e]; simpl; [apply IH|reflexivity].
Qed.

Lemma step_total c g : exists g', step c g = Normal g'.
Proof.
  destruct c; unfold step, acquire, release, acquire_resume; simpl.
  - destruct (_size (gate g) <=? _running (gate g))%Z; simpl; eauto.
  - destruct (_resolvers (gate g)); simpl; eauto.
  - destruct (microtasks g); simpl; eauto.
Qed.

Lemma exec_total cs g : exists g', exec cs g = Normal g'.
Proof.
  revert g. induction cs as [|c cs IH]; intros g; simpl; [eauto|].
  destruct (step_total c g) as [g' ->]. simpl. apply IH.
Qed.

Lemma step_line c g g' :
  step c g = Normal g' ->
  (issued g' = issued g /\ line g' = line g)
  \/ (issued g' = S (issued g) /\ line g' ≡ₚ line g ++ [issued g]).
Proof.
  destruct g as [[r sz q] n m a k].
  destruct c; unfold step, acquire, release, acquire_resume, line; simpl.
  - destruct (sz <=? r)%Z; simpl; intros [= <-]; simpl; right; split;
      try reflexivity.
    + by rewrite <- !app_assoc.
    + rewrite <- !app_assoc. f_equiv. simpl.
      rewrite (app_assoc m q [n]). apply Permutation_cons_append.
  - destruct q as [|next rest]; simpl; intros [= <-]; simpl; left; split;
      try reflexivity.
    + by rewrite app_nil_r.
    + by rewrite <- !app_assoc.
  - destruct m as [|me rest]; simpl; intros [= <-]; simpl; left; split;
      try reflexivity.
    by rewrite <- !app_assoc.
Qed.

Lemma exec_line cs : forall g g',
  line g ≡ₚ seq 0 (issued g) ->
  exec cs g = Normal g' ->
  line g' ≡ₚ seq 0 (issued g').
Proof.
  induction cs as [|c cs IH]; intros g g' Hg; simpl.
  - by intros [= <-].
  - destruct (step c g) as [g1|e] eqn:Hstep; simpl; [|discriminate].
    apply IH. destruct (step_line _ _ _ Hstep) as [[-> ->]|[-> ->]];
      [done|].
    rewrite Hg. by rewrite seq_S.
Qed.

Lemma reachable_line size cs g :
  exec cs (init size) = Normal g -> line g ≡ₚ seq 0 (issued g).
Proof. apply exec_line. reflexivity. Qed.

(** Without a release nobody leaves the queue. *)
Lemma stays_suspended cs : forall g g' c,
  CallRelease ∉ cs ->
  exec cs g = Normal g' ->
  c ∈ _resolvers (gate g) ->
  c ∈ _resolvers (gate g').
Proof.
  induction cs as [|k cs IH]; intros g g' c Hnr; simpl.
  - by intros [= <-].
  - destruct (step k g) as [g1|e] eqn:Hstep; simpl; [|discriminate].
    intros Hexec Hc. apply (IH g1); [set_solver|done|].
    destruct g as [[r sz q] n m a rel].
    destruct k; unfold step, acquire, acquire_resume in Hstep;
      simpl in *.
    + destruct (sz <=? r)%Z; simpl in Hstep; injection Hstep as <-;
        simpl; set_solver.
    + set_solver.
    + destruct m; simpl in Hstep; injection Hstep as <-; simpl; done.
Qed.

(** X6. Suspended callers are woken, and woken callers resumed, in the
    order of their calls: the callers woken and not yet resumed, followed
    by those still suspended, are always in increasing order of call. *)
Lemma wake_order size cs g :
  exec cs (init size) = Normal g ->
  StronglySorted lt (microtasks g ++ _resolvers (gate g)).
Proof.
  assert (Hgen : forall cs g g',
    (StronglySorted lt (microtasks g ++ _resolvers (gate g))
     /\ Forall (fun c => c < issued g) (microtasks g ++ _resolvers (gate g))) ->
    exec cs g = Normal g' ->
    StronglySorted lt (microtasks g' ++ _resolvers (gate g'))
    /\ Forall (fun c => c < issued g')
         (microtasks g' ++ _resolvers (gate g'))).
  { clear. induction cs as [|k cs IH]; intros g g' Hg; simpl.
    - by intros [= <-].
    - destruct (step k g) as [g1|e] eqn:Hstep; simpl; [|discriminate].
      apply IH. destruct Hg as [Hs Hb].
      destruct g as [[r sz q] n m a rel].
      destruct k; unfold step, acquire, release, acquire_resume in Hstep;
        simpl in *.
      + destruct (sz <=? r)%Z; simpl in Hstep; injection Hstep as <-;
          simpl.
        * rewrite app_assoc. split.
          -- apply StronglySorted_app_2; [|done|repeat constructor].
             intros x y Hx Hy. apply list_elem_of_singleton in Hy as ->.
             by eapply Forall_forall in Hb.
          -- apply Forall_app. split; [|repeat constructor].
             eapply Forall_impl; [exact Hb|]. simpl. lia.
        * split; [done|]. eapply Forall_impl; [exact Hb|]. simpl. lia.
      + destruct q as [|next rest]; simpl in Hstep; injection Hstep as <-;
          simpl.
        * by rewrite !app_nil_r in *.
        * by rewrite <- !app_assoc.
      + destruct m as [|me rest]; simpl in Hstep; injection Hstep as <-;
          simpl; [done|].
        simpl in Hs, Hb. inversion Hs; subst. inversion Hb; subst. done. }
  intros Hexec. eapply Hgen in Hexec; [apply Hexec|].
  simpl. split; constructor.
Qed.
End GateFacts.

(** C5. On a gate reached by any calls, the next [acquire] never throws.
    With [_running < _size] it raises [_running] by one and is done at
    once, the queue untouched.  With [_running >= _size] it leaves
    [_running] alone, appends the caller's resolver behind those already
    waiting, and stays suspended: as long as no [release] is called the
    caller sits in the queue and is not admitted; once a release has called
    its resolver and its continuation runs, [_running] is raised by one and
    the caller is admitted. *)
Theorem acquire_contract (size : Z) (cs : list Gate.Call) (g : Gate.Run) :
  Gate.exec cs (Gate.init size) = Normal g ->
  let c := Gate.issued g in
  let s := Gate.gate g in
  (forall e, acquire c s <> Throw e)
  /\ ((_running s < _size s)%Z ->
        acquire c s
        = Normal ({| _running := _running s + 1; _size := _size s;
                     _resolvers := _resolvers s |}, AcquireDone))
  /\ ((_size s <= _running s)%Z ->
        acquire c s
        = Normal ({| _running := _running s; _size := _size s;
                     _resolvers := _resolvers s ++ [c] |}, AcquireAwait)
        /\ forall g1, Gate.step Gate.CallAcquire g = Normal g1 ->
             (forall cs2 g2,
                 Gate.CallRelease ∉ cs2 ->
                 Gate.exec cs2 g1 = Normal g2 ->
                 c ∈ _resolvers (Gate.gate g2) /\ c ∉ Gate.admitted g2)
             /\ (forall cs2 g2 rest,
                   Gate.exec cs2 g1 = Normal g2 ->
                   Gate.microtasks g2 = c :: rest ->
                   exists g3,
                     Gate.step Gate.RunMicrotask g2 = Normal g3
                     /\ _running (Gate.gate g3)
                        = (_running (Gate.gate g2) + 1)%Z
                     /\ Gate.admitted g3 = Gate.admitted g2 ++ [c])).
Proof.
  intros Hreach c s. split; [|split].
  - intros e. unfold acquire, acquire_resume.
    destruct (_size s <=? _running s)%Z; discriminate.
  - intros Hlt. unfold acquire, acquire_resume.
    destruct (Z.leb_spec (_size s) (_running s)); [lia|reflexivity].
  - intros Hge.
    assert (Hacq : acquire c s
      = Normal ({| _running := _running s; _size := _size s;
                   _resolvers := _resolvers s ++ [c] |}, AcquireAwait)).
    { unfold acquire. destruct (Z.leb_spec (_size s) (_running s));
        [reflexivity|lia]. }
    split; [exact Hacq|].
    intros g1 Hstep. split.
    + intros cs2 g2 Hnr Hexec.
      assert (Hin : c ∈ _resolvers (Gate.gate g1)).
      { unfold Gate.step in Hstep. fold c s in Hstep. rewrite Hacq in Hstep.
        simpl in Hstep. injection Hstep as <-. simpl. set_solver. }
      pose proof (GateFacts.stays_suspended _ _ _ c Hnr Hexec Hin) as Hq.
      split; [exact Hq|].
      assert (Hr2 : Gate.exec (cs ++ [Gate.CallAcquire] ++ cs2)
                      (Gate.init size) = Normal g2).
      { rewrite GateFacts.exec_app, Hreach. cbn [cbind app Gate.exec].
        rewrite Hstep. exact Hexec. }
      apply GateFacts.reachable_line in Hr2.
      assert (Hnd : NoDup (Gate.line g2)).
      { rewrite Hr2. apply NoDup_seq. }
      unfold Gate.line in Hnd.
      apply NoDup_app in Hnd as (_ & Hdisj & _).
      intros Hadm. apply (Hdisj c Hadm). set_solver.
    + intros cs2 g2 rest _ Hm. unfold Gate.step. rewrite Hm. simpl.
      eexists. split; [reflexivity|]. simpl. done.
Qed.

Lemma acquire_contract_witness :
  acquire 1 {| _running := 1; _size := 1; _resolvers := [] |}
  = Normal ({| _running := 1; _size := 1; _resolvers := [1] |}, AcquireAwait).
Proof.
  pose proof (acquire_contract 1 [Gate.CallAcquire] _ eq_refl) as H.
  simpl in H. destruct H as (_ & _ & H).
  exact (proj1 (H ltac:(lia))).
Defined.

(** C1, evaluated where it fails.  On a gate of capacity 1: caller 0
    acquires, caller 1 finds the gate full and suspends, caller 0 releases
    (which calls caller 1's resolver), caller 2 acquires before caller 1's
    continuation has run, then that continuation runs.  [_running] is 2 and
    two callers hold the gate of capacity 1. *)
Theorem capacity_exceeded_when_overtaken :
  exists g,
    Gate.exec [Gate.CallAcquire; Gate.CallAcquire; Gate.CallRelease;
               Gate.CallAcquire; Gate.RunMicrotask] (Gate.init 1)
    = Normal g
    /\ _size (Gate.gate g) = 1%Z
    /\ _running (Gate.gate g) = 2%Z
    /\ holders g = 2%Z.
Proof. eexists. split; [reflexivity|]. by vm_compute. Qed.

(** C3, evaluated where it fails.  In the same run, after the release has
    called the resolver of the suspended caller 1, caller 2 arrives and is
    admitted at once; caller 1, suspended earlier, is admitted after it. *)
Theorem late_caller_admitted_before_waiter :
  exists g1 g,
    Gate.exec [Gate.CallAcquire; Gate.CallAcquire; Gate.CallRelease]
      (Gate.init 1) = Normal g1
    /\ Gate.microtasks g1 = [1]
    /\ Gate.admitted g1 = [0]
    /\ Gate.exec [Gate.CallAcquire; Gate.RunMicrotask] g1 = Normal g
    /\ Gate.admitted g = [0; 2; 1].
Proof. eexists _, _. repeat split; reflexivity. Qed.

(** ** The stage *)

Import Stage.

(** *** Readings of a growing log *)

Section log_readings.
Implicit Types (lg es : list Event) (i : nat).

Lemma acquired_app lg es : acquired (lg ++ es) = acquired lg ++ acquired es.
Proof. apply omap_app. Qed.
Lemma pushed_app lg es : pushed (lg ++ es) = pushed lg ++ pushed es.
Proof. apply omap_app. Qed.
Lemma sunk_app lg es : sunk (lg ++ es) = sunk lg ++ sunk es.
Proof. apply omap_app. Qed.
Lemma releases_app lg es : releases (lg ++ es) = releases lg + releases es.
Proof. unfold releases. by rewrite omap_app, length_app. Qed.
Lemma fired_app lg es : fired (lg ++ es) = fired lg + fired es.
Proof. unfold fired. by rewrite omap_app, length_app. Qed.
Lemma releases_cons e lg :
  releases (e :: lg)
  = (match e with EvRelease => 1 | _ => 0 end) + releases lg.
Proof. by destruct e. Qed.
Lemma fired_cons e lg :
  fired (e :: lg) = (match e with EvOnFinal => 1 | _ => 0 end) + fired lg.
Proof. by destruct e. Qed.
Lemma releases_nil : releases [] = 0.
Proof. done. Qed.
Lemma fired_nil : fired [] = 0.
Proof. done. Qed.
Lemma events_of_app i lg es :
  events_of i (lg ++ es) = events_of i lg ++ events_of i es.
Proof. apply List.filter_app. Qed.

Lemma events_of_elem i e lg :
  e ∈ lg -> about i e = true -> e ∈ events_of i lg.
Proof.
  intros He Ha. apply list_elem_of_In, List.filter_In. split; [|done].
  by apply list_elem_of_In.
Qed.

Lemma acquired_elem i lg : i ∈ acquired lg -> EvAcquired i ∈ events_of i lg.
Proof.
  intros Hi. apply list_elem_of_omap in Hi as (e & He & Hm).
  destruct e; try discriminate. injection Hm as ->.
  apply events_of_elem; [done|]. simpl. by apply bool_decide_eq_true.
Qed.

Lemma pushed_elem i x lg : (i, x) ∈ pushed lg -> EvPush i x ∈ events_of i lg.
Proof.
  intros Hi. apply list_elem_of_omap in Hi as (e & He & Hm).
  destruct e; try discriminate. injection Hm as -> ->.
  apply events_of_elem; [done|]. simpl. by apply bool_decide_eq_true.
Qed.

Lemma pushed_fst_elem i lg :
  i ∈ (pushed lg).*1 -> exists x, EvPush i x ∈ events_of i lg.
Proof.
  intros Hi. apply list_elem_of_fmap in Hi as ([j x] & -> & Hin).
  exists x. by apply pushed_elem.
Qed.

Lemma trail_same i a lg lg' :
  events_of i lg' = events_of i lg -> trail i a lg -> trail i a lg'.
Proof. intros He. unfold trail. destruct (pc a); by rewrite He. Qed.
End log_readings.

Lemma lookup_alter_pc (cs : list Activation) (j : nat) (p : PC) i a' :
  alter (fun a => {| chunk := chunk a; pc := p |}) j cs !! i = Some a' ->
  (i <> j /\ cs !! i = Some a')
  \/ (i = j /\ exists a, cs !! j = Some a /\ chunk a' = chunk a /\ pc a' = p).
Proof.
  destruct (decide (i = j)) as [->|Hne].
  - rewrite list_lookup_alter_eq. intros (a & Ha & ->)%fmap_Some.
    right. eauto.
  - rewrite list_lookup_alter_ne by done. eauto.
Qed.

Lemma lookup_alter_pc_chunk (cs : list Activation) (j : nat) (p : PC) i a :
  cs !! i = Some a ->
  exists a', alter (fun a => {| chunk := chunk a; pc := p |}) j cs !! i = Some a'
             /\ chunk a' = chunk a.
Proof.
  intros Ha. destruct (decide (i = j)) as [->|Hne].
  - rewrite list_lookup_alter_eq, Ha. simpl. eauto.
  - rewrite list_lookup_alter_ne by done. eauto.
Qed.

Ltac readings :=
  rewrite ?acquired_app, ?pushed_app, ?sunk_app, ?releases_app, ?fired_app,
    ?events_of_app;
  rewrite ?releases_cons, ?fired_cons, ?releases_nil, ?fired_nil; simpl;
  rewrite ?app_nil_r, ?Nat.add_0_r.

Ltac snoc_cases H :=
  apply lookup_snoc_Some in H as [[? H]|[? ?]]; [|subst]; simpl.

Lemma checkDone_inv t t' : Inv t -> _checkDone t = Normal t' -> Inv t'.
Proof.
  intros HI. unfold _checkDone.
  destruct (_ && _); intros [= <-]; [|done].
  destruct HI. split; simpl; readings; try done.
  - intros i a Ha. eapply trail_same; [|by eauto]. by readings.
  - intros i Hi. readings. eauto.
Qed.

Lemma write_inv c t t1 :
  Inv t -> writing t = false -> onFinal t = false ->
  _transform c t = Normal t1 ->
  Inv {| onFinal := onFinal t1; _semaphore := _semaphore t1;
         calls := calls t1; writing := true; flowing := flowing t1;
         buffer := buffer t1; log := log t1 |}.
Proof.
  intros HI Hw Hf. unfold _transform, acquire, acquire_resume.
  destruct t as [fin [r sz q] cs wr fl buf lg]. simpl in *. subst wr fin.
  assert (Hpost : forall i a, cs !! i = Some a -> ~ pre_callback (pc a)).
  { intros i a Ha Hp. by destruct (inv_serial _ HI i a Ha Hp). }
  assert (Hq : q = []).
  { destruct q as [|j q']; [done|]. exfalso.
    destruct (inv_queue _ HI j) as [_ Hj]; [set_solver|]. simpl in Hj.
    apply fmap_Some in Hj as (a & Ha & Hpc).
    apply (Hpost _ _ Ha). by rewrite <- Hpc. }
  subst q.
  destruct (sz <=? r)%Z eqn:Hcap; simpl; intros [= <-]; simpl;
    destruct HI; simpl in *; split; simpl; readings; try done.
  - intros i a Ha; snoc_cases Ha; eauto.
    unfold trail. simpl. apply inv_fresh0. lia.
  - intros i. rewrite length_app. simpl. intros Hi. apply inv_fresh0. lia.
  - intros i a Ha; snoc_cases Ha.
    + intros Hp. by destruct (Hpost _ _ Ha).
    + rewrite length_app. simpl. split; [done|lia].
  - intros j ->%list_elem_of_singleton. split; [done|].
    by rewrite lookup_app_r, Nat.sub_diag by lia.
  - intros i a p w Ha; snoc_cases Ha; eauto.
    discriminate.
  - intros i a Ha; snoc_cases Ha.
    + eapply trail_same; [|by eauto]. readings.
      case_bool_decide; [|by rewrite app_nil_r].
      apply lookup_lt_Some in Ha. lia.
    + unfold trail. simpl. readings. rewrite inv_fresh0 by lia.
      by rewrite bool_decide_true.
  - intros i. rewrite length_app. simpl. intros Hi. readings.
    rewrite inv_fresh0 by lia. rewrite bool_decide_false by lia. done.
  - intros i a Ha; snoc_cases Ha.
    + intros Hp. by destruct (Hpost _ _ Ha).
    + rewrite length_app. simpl. split; [done|lia].
  - set_solver.
  - intros i a p w Ha; snoc_cases Ha; eauto.
    discriminate.
  - apply NoDup_app. split; [done|]. split; [|apply NoDup_singleton].
    intros i Hi ->%list_elem_of_singleton.
    apply acquired_elem in Hi. rewrite inv_fresh0 in Hi by lia.
    by apply not_elem_of_nil in Hi.
  - rewrite length_app. simpl. lia.
Qed.

Ltac decided :=
  repeat case_bool_decide; try congruence; try lia;
  rewrite ?app_nil_r; try done.

(** *** Each handler keeps the invariant *)

Tactic Notation "alter_cases" hyp(H) "as" ident(Hc) ident(Hp) :=
  apply lookup_alter_pc in H as [[? H]|[? (? & H & Hc & Hp)]];
  [|subst; simplify_eq]; simpl.

Lemma final_inv t :
  Inv t -> writing t = false ->
  Inv {| onFinal := true; _semaphore := _semaphore t; calls := calls t;
         writing := writing t; flowing := flowing t; buffer := buffer t;
         log := log t |}.
Proof. intros HI Hw. destruct HI. by split. Qed.

Lemma flowing_inv b t : Inv t -> Inv (set_flowing b t).
Proof. intros HI. destruct HI. by split. Qed.

Lemma acquire_continue_inv i t t' :
  Inv t -> pc <$> calls t !! i = Some AcquireWoken ->
  acquire_continue i t = Normal t' -> Inv t'.
Proof.
  intros HI Hpc. unfold acquire_continue, acquire_resume. simpl.
  intros [= <-].
  apply fmap_Some in Hpc as (a0 & Ha0 & Hpc0).
  pose proof (inv_trail _ HI _ _ Ha0) as Htr. unfold trail in Htr.
  rewrite <- Hpc0 in Htr.
  destruct HI. split; simpl.
  - intros k a Ha. alter_cases Ha as Hc Hp.
    + eapply trail_same; [|by eauto]. readings.
      decided.
    + unfold trail. rewrite Hp. readings. rewrite Htr.
      decided.
  - intros k. rewrite length_alter. intros Hk. readings.
    rewrite inv_fresh0 by done. apply lookup_lt_Some in Ha0.
    decided.
  - intros k a Ha. rewrite length_alter. alter_cases Ha as Hc Hp; [by eauto|].
    intros _. apply (inv_serial0 _ _ Ha0). by rewrite <- Hpc0.
  - intros j Hj. destruct (inv_queue0 j Hj) as [Hq Hin]. split; [done|].
    rewrite list_lookup_alter_ne; [done|].
    intros Heq; subst. rewrite Ha0 in Hin. simpl in Hin. congruence.
  - done.
  - intros k a p w Ha. alter_cases Ha as Hc Hp; [by eauto|]. congruence.
  - readings. apply NoDup_app. split; [done|].
    split; [|apply NoDup_singleton].
    intros k Hk ->%list_elem_of_singleton.
    apply acquired_elem in Hk. rewrite Htr in Hk.
    by apply not_elem_of_nil in Hk.
  - by readings.
  - by readings.
  - by readings.
  - readings. rewrite length_app. simpl. lia.
Qed.

Lemma after_acquire_inv i now t t' :
  Inv t -> pc <$> calls t !! i = Some AfterAcquire ->
  _transform_after_acquire i now t = Normal t' -> Inv t'.
Proof.
  intros HI Hpc. unfold _transform_after_acquire.
  apply fmap_Some in Hpc as (a0 & Ha0 & Hpc0). rewrite Ha0.
  intros [= <-].
  pose proof (inv_trail _ HI _ _ Ha0) as Htr. unfold trail in Htr.
  rewrite <- Hpc0 in Htr.
  destruct (inv_serial _ HI _ _ Ha0) as [Hw Hlast]; [by rewrite <- Hpc0|].
  destruct HI. split; simpl.
  - intros k a Ha. alter_cases Ha as Hc Hp.
    + eapply trail_same; [|by eauto]. readings.
      decided.
    + unfold trail. rewrite Hp. readings. rewrite Htr.
      decided.
  - intros k. rewrite length_alter. intros Hk. readings.
    rewrite inv_fresh0 by done. apply lookup_lt_Some in Ha0.
    decided.
  - intros k a Ha. rewrite length_alter. alter_cases Ha as Hc Hp.
    + intros Hp. destruct (inv_serial0 _ _ Ha Hp) as [_ Hk]. lia.
    + rewrite Hp. done.
  - intros j Hj. destruct (inv_queue0 j Hj) as [Hq Hin]. split; [done|].
    rewrite list_lookup_alter_ne; [done|].
    intros Heq; subst. rewrite Ha0 in Hin. simpl in Hin. congruence.
  - done.
  - intros k a p w Ha. alter_cases Ha as Hc Hp; [by eauto|].
    rewrite Hp. intros [= <- _]. congruence.
  - by readings.
  - by readings.
  - by readings.
  - by readings.
  - by readings.
Qed.

Lemma settled_inv i r a0 p w t :
  Inv t -> calls t !! i = Some a0 -> pc a0 = AwaitWork p w ->
  Inv (settled i r (<[ "changedAt" := VNum r ]> p) t).
Proof.
  intros HI Ha0 Hpc0.
  pose proof (inv_trail _ HI _ _ Ha0) as Htr. unfold trail in Htr.
  rewrite Hpc0 in Htr.
  pose proof (inv_partial _ HI _ _ _ _ Ha0 Hpc0) as ->.
  destruct HI. split; simpl; rewrite <- ?app_assoc; simpl.
  - intros k a Ha. alter_cases Ha as Hc Hp.
    + eapply trail_same; [|by eauto]. readings. decided.
    + unfold trail. rewrite Hp, Hc. readings. rewrite Htr. decided. eauto.
  - intros k. rewrite length_alter. intros Hk. readings.
    rewrite inv_fresh0 by done. apply lookup_lt_Some in Ha0. decided.
  - intros k a Ha. rewrite length_alter. alter_cases Ha as Hc Hp;
      [by eauto|]. by rewrite Hp.
  - intros j Hj. destruct (inv_queue0 j Hj) as [Hq Hin]. split; [done|].
    rewrite list_lookup_alter_ne; [done|].
    intros Heq; subst. rewrite Ha0 in Hin. simpl in Hin. congruence.
  - done.
  - intros k a p' w' Ha. alter_cases Ha as Hc Hp; [by eauto|]. congruence.
  - by readings.
  - readings. rewrite fmap_app. simpl. apply NoDup_app. split; [done|].
    split; [|apply NoDup_singleton].
    intros k Hk ->%list_elem_of_singleton.
    apply pushed_fst_elem in Hk as [x Hx]. rewrite Htr in Hx.
    apply list_elem_of_In in Hx. simpl in Hx. intuition discriminate.
  - readings. rewrite inv_buffer0. by rewrite app_assoc.
  - by readings.
  - by readings.
Qed.

(** The buffered chunk handed to the listeners, up to [_checkDone]. *)
Lemma delivered_inv ix rest t s next :
  Inv t -> buffer t = ix :: rest ->
  release (_semaphore t) = Normal (s, next) ->
  Inv (wake next (emit EvRelease
         (set_semaphore s (emit (EvData ix.1 ix.2) (set_buffer rest t))))).
Proof.
  intros HI Hbuf. destruct ix as [i x].
  destruct t as [fin [r sz q] cs wr fl buf lg]. simpl in *. subst buf.
  assert (Hq : q = [] \/ exists j a, q = [j] /\ cs !! j = Some a
                                   /\ pc a = InAcquire).
  { destruct q as [|j q']; [by left|right].
    destruct (inv_queue _ HI j) as [Hq Hj]; [set_solver|]. simpl in *.
    apply fmap_Some in Hj as (a & Ha & Hpc). eauto. }
  unfold release. simpl.
  destruct Hq as [->|(j & aj & -> & Haj & Hpcj)]; intros [= <- <-]; simpl.
  - destruct HI; simpl in *. split; simpl; rewrite <- ?app_assoc; simpl.
    + intros k a Ha. eapply trail_same; [|by eauto]. by readings.
    + intros k Hk. readings. eauto.
    + done.
    + set_solver.
    + done.
    + done.
    + by readings.
    + by readings.
    + readings. rewrite inv_buffer0. by rewrite <- app_assoc.
    + readings. rewrite length_app. simpl. lia.
    + readings. lia.
  - pose proof (inv_trail _ HI _ _ Haj) as Htr. unfold trail in Htr.
    rewrite Hpcj in Htr.
    destruct HI; simpl in *. split; simpl; rewrite <- ?app_assoc; simpl.
    + intros k a Ha. alter_cases Ha as Hc Hp.
      * eapply trail_same; [|by eauto]. by readings.
      * unfold trail. rewrite Hp. by readings.
    + intros k. rewrite length_alter. intros Hk. readings. eauto.
    + intros k a Ha. rewrite length_alter. alter_cases Ha as Hc Hp;
        [by eauto|].
      intros _. apply (inv_serial0 _ _ Haj). by rewrite Hpcj.
    + set_solver.
    + done.
    + intros k a p w Ha. alter_cases Ha as Hc Hp; [by eauto|]. congruence.
    + by readings.
    + by readings.
    + readings. rewrite inv_buffer0. by rewrite <- app_assoc.
    + readings. rewrite length_app. simpl. lia.
    + readings. lia.
Qed.

Lemma flow_inv t t' : Inv t -> flow t = Normal t' -> Inv t'.
Proof.
  intros HI. unfold flow. destruct (buffer t) as [|ix rest] eqn:Hbuf.
  - by intros [= <-].
  - unfold emit_data, on_data. simpl.
    destruct (release (_semaphore t)) as [[s next]|e] eqn:Hrel; simpl;
      [|discriminate].
    apply checkDone_inv. by apply delivered_inv.
Qed.

(** In flowing mode with nothing buffered, [push] is a buffering followed
    at once by the delivery of the buffered chunk. *)
Lemma push_flowing i x t :
  flowing t = true -> buffer t = [] ->
  push i x t = flow (set_buffer [(i, x)] (emit (EvPush i x) t)).
Proof.
  intros Hf Hb. unfold push, flow. simpl. rewrite Hf, Hb. simpl.
  destruct t; simpl in *. by subst.
Qed.

Lemma push_buffering i x t :
  flowing t && bool_decide (buffer t = []) = false ->
  push i x t = Normal (set_buffer (buffer t ++ [(i, x)]) (emit (EvPush i x) t)).
Proof. intros Hf. unfold push. simpl. by rewrite Hf. Qed.

Lemma checkDone_set_pc i p u :
  _checkDone (set_pc i p u)
  = (let* u' := _checkDone u in Normal (set_pc i p u')).
Proof. unfold _checkDone. simpl. by destruct (_ && _). Qed.

Lemma on_data_set_pc i p u :
  (forall j, head (_resolvers (_semaphore u)) = Some j -> j <> i) ->
  on_data (set_pc i p u)
  = (let* u' := on_data u in Normal (set_pc i p u')).
Proof.
  intros Hj. unfold on_data. simpl.
  destruct (release_effect (_semaphore u)) as (s & next & -> & _ & _ & Hn & _).
  simpl. destruct next as [j|]; simpl.
  - assert (Hne : j <> i) by (apply Hj; by rewrite Hn).
    replace (set_pc j AcquireWoken (emit EvRelease (set_semaphore s (set_pc i p u))))
      with (set_pc i p (set_pc j AcquireWoken (emit EvRelease (set_semaphore s u)))).
    + apply checkDone_set_pc.
    + unfold set_pc, emit, set_semaphore. simpl. f_equal.
      by apply list_alter_alter_ne.
  - apply (checkDone_set_pc i p (emit EvRelease (set_semaphore s u))).
Qed.

Lemma push_set_pc i p k x u :
  (forall j, head (_resolvers (_semaphore u)) = Some j -> j <> i) ->
  push k x (set_pc i p u)
  = (let* u' := push k x u in Normal (set_pc i p u')).
Proof.
  intros Hj. unfold push. simpl.
  destruct (flowing u && bool_decide (buffer u = [])); [|done].
  unfold emit_data. simpl.
  apply (on_data_set_pc i p (emit (EvData k x) (emit (EvPush k x) u))).
  exact Hj.
Qed.

Lemma after_work_equiv i now t :
  Inv t -> _transform_after_work i now t = after_work_marked_first i now t.
Proof.
  intros HI. unfold _transform_after_work, after_work_marked_first.
  destruct (pc <$> calls t !! i) as [p|] eqn:Hpc; [|done].
  destruct p as [| | |partial w|]; try done.
  assert (Hq : forall j, head (_resolvers (_semaphore t)) = Some j -> j <> i).
  { intros j Hj.
    destruct (_resolvers (_semaphore t)) as [|j' q] eqn:Hres; [done|].
    simpl in Hj. injection Hj as ->.
    destruct (inv_queue _ HI j) as [_ Hin]; [rewrite Hres; apply list_elem_of_here|].
    intros ->. rewrite Hpc in Hin. discriminate. }
  set (r := match w with Immediate v => v | Deferred => now end).
  set (x := <[ "changedAt" := VNum r ]> partial).
  change (emit (EvSettled i r) (set_pc i Returned t))
    with (set_pc i Returned (emit (EvSettled i r) t)).
  rewrite (push_set_pc i Returned i x (emit (EvSettled i r) t)) by exact Hq.
  destruct (push i x (emit (EvSettled i r) t)) as [u|e]; simpl; [|done].
  by rewrite checkDone_set_pc.
Qed.

Lemma after_work_inv i now t t' :
  Inv t -> _transform_after_work i now t = Normal t' -> Inv t'.
Proof.
  intros HI. rewrite after_work_equiv by done.
  unfold after_work_marked_first.
  destruct (pc <$> calls t !! i) as [p|] eqn:Hpc; [|by intros [= <-]].
  destruct p as [| | |partial w|]; try by intros [= <-].
  apply fmap_Some in Hpc as (a0 & Ha0 & Hpc0). symmetry in Hpc0.
  set (r := match w with Immediate v => v | Deferred => now end).
  pose proof (settled_inv i r a0 partial w t HI Ha0 Hpc0) as HS.
  destruct (flowing t && bool_decide (buffer t = [])) eqn:Hfl.
  - apply andb_prop in Hfl as [Hf Hb%bool_decide_eq_true].
    rewrite push_flowing by done.
    destruct (flow _) as [t1|e] eqn:Hflow; simpl; [|discriminate].
    apply checkDone_inv. revert Hflow. apply flow_inv.
    unfold settled in HS. simpl in HS. rewrite Hb in HS. exact HS.
  - rewrite push_buffering by done. simpl. apply checkDone_inv. exact HS.
Qed.

Lemma step_inv l t t' : Inv t -> step l t = Some t' -> Inv t'.
Proof.
  intros HI. unfold step.
  destruct (enabled l t) eqn:Hen; [|discriminate].
  destruct (handle l t) as [t1|e] eqn:Hh; [|discriminate].
  intros [= <-]. destruct l; simpl in Hen, Hh.
  - apply andb_prop in Hen as [Hw%negb_true_iff Hf%negb_true_iff].
    destruct (_transform c t) as [t0|e] eqn:Ht; simpl in Hh; [|discriminate].
    injection Hh as <-. by eapply write_inv.
  - apply andb_prop in Hen as [Hw%negb_true_iff Hf%negb_true_iff].
    revert Hh. apply checkDone_inv. by apply final_inv.
  - unfold pc_of in Hen.
    destruct (pc <$> calls t !! i) as [[]|] eqn:Hpc; try discriminate.
    by eapply acquire_continue_inv.
  - unfold pc_of in Hen.
    destruct (pc <$> calls t !! i) as [[]|] eqn:Hpc; try discriminate.
    by eapply after_acquire_inv.
  - by eapply after_work_inv.
  - by eapply flow_inv.
  - injection Hh as <-. by apply flowing_inv.
  - injection Hh as <-. by apply flowing_inv.
Qed.

Lemma init_inv hwm : Inv (new_ConcurrentTransform hwm).
Proof.
  split; simpl; try done.
  - intros j Hj. by apply not_elem_of_nil in Hj.
  - apply NoDup_nil_2.
  - apply NoDup_nil_2.
Qed.

Lemma run_inv ls : forall t t', Inv t -> run ls t = Some t' -> Inv t'.
Proof.
  induction ls as [|l ls IH]; intros t t' HI; simpl.
  - by intros [= <-].
  - destruct (step l t) as [t1|] eqn:Hstep; [|discriminate].
    apply IH. by eapply step_inv.
Qed.

(** *** The completion callback *)

Lemma fired_zero_quiet t : fired (log t) = 0 -> Quiet t.
Proof. unfold Quiet. lia. Qed.

Lemma checkDone_quiet t t' : Quiet t -> _checkDone t = Normal t' -> Quiet t'.
Proof.
  intros HQ. unfold _checkDone.
  destruct (_ && _) eqn:Hc; intros [= <-]; [|done].
  apply andb_prop in Hc as [Hr%Z.eqb_eq Hf]. by intros _.
Qed.

Lemma flow_quiet t t' : fired (log t) = 0 -> flow t = Normal t' -> Quiet t'.
Proof.
  intros Hz. unfold flow. destruct (buffer t) as [|ix rest].
  - intros [= <-]. by apply fired_zero_quiet.
  - unfold emit_data, on_data.
    destruct (release _) as [[s next]|e]; simpl; [|discriminate].
    apply checkDone_quiet, fired_zero_quiet.
    destruct next; simpl; rewrite <- app_assoc; by readings.
Qed.

Lemma after_work_quiet i now t t' :
  Inv t -> fired (log t) = 0 ->
  _transform_after_work i now t = Normal t' -> Quiet t'.
Proof.
  intros HI Hz. rewrite after_work_equiv by done.
  unfold after_work_marked_first.
  destruct (pc <$> calls t !! i) as [p|];
    [|intros [= <-]; by apply fired_zero_quiet].
  destruct p as [| | |partial w|];
    try (intros [= <-]; by apply fired_zero_quiet).
  destruct (flowing t && bool_decide (buffer t = [])) eqn:Hfl.
  - apply andb_prop in Hfl as [Hf Hb%bool_decide_eq_true].
    rewrite push_flowing by done.
    destruct (flow _) as [t1|e] eqn:Hflow; simpl; [|discriminate].
    apply checkDone_quiet. revert Hflow. apply flow_quiet.
    simpl. rewrite <- app_assoc. by readings.
  - rewrite push_buffering by done. simpl.
    apply checkDone_quiet, fired_zero_quiet. simpl.
    rewrite <- app_assoc. by readings.
Qed.

(** When [_final] has stored its callback and the gate counts nobody, every
    activation has returned, each has pushed once, and every pushed item
    has been emitted. *)
Lemma drained t :
  Inv t -> onFinal t = true -> _running (_semaphore t) = 0%Z ->
  buffer t = []
  /\ (forall i a, calls t !! i = Some a -> pc a = Returned)
  /\ (pushed (log t)).*1 ≡ₚ seq 0 (length (calls t))
  /\ sunk (log t) = pushed (log t).
Proof.
  intros HI Hfin Hrun.
  pose proof (inv_final _ HI Hfin) as Hw.
  assert (Hpost : forall i a, calls t !! i = Some a -> ~ pre_callback (pc a)).
  { intros i a Ha Hp. destruct (inv_serial _ HI i a Ha Hp). congruence. }
  set (n := length (calls t)).
  assert (Hacq : acquired (log t) ≡ₚ seq 0 n).
  { apply NoDup_Permutation; [apply HI|apply NoDup_seq|].
    intros i. rewrite elem_of_seq. split.
    - intros Hi. destruct (decide (i < n)) as [|Hge]; [lia|].
      apply acquired_elem in Hi. rewrite (inv_fresh _ HI) in Hi by (fold n; lia).
      by apply not_elem_of_nil in Hi.
    - intros [_ Hi]. destruct (lookup_lt_is_Some_2 (calls t) i Hi) as [a Ha].
      assert (He : EvAcquired i ∈ events_of i (log t)).
      { pose proof (inv_trail _ HI _ _ Ha) as Htr. unfold trail in Htr.
        specialize (Hpost _ _ Ha).
        destruct (pc a); simpl in Hpost; try tauto.
        - rewrite Htr. set_solver.
        - destruct Htr as [r ->]. set_solver. }
      apply list_elem_of_In, List.filter_In in He as [He _].
      apply list_elem_of_omap. exists (EvAcquired i).
      by rewrite list_elem_of_In. }
  assert (Hbound : forall i, i ∈ (pushed (log t)).*1 -> i < n).
  { intros i Hi. destruct (decide (i < n)) as [|Hge]; [done|].
    apply pushed_fst_elem in Hi as [x Hx].
    rewrite (inv_fresh _ HI) in Hx by (fold n; lia).
    by apply not_elem_of_nil in Hx. }
  assert (Hsub : (pushed (log t)).*1 ⊆+ seq 0 n).
  { apply NoDup_submseteq; [apply HI|].
    intros i Hi. apply elem_of_seq. split; [lia|]. simpl. by apply Hbound. }
  pose proof (submseteq_length _ _ Hsub) as Hlen.
  rewrite length_fmap, length_seq in Hlen.
  pose proof (inv_running _ HI) as Hr. rewrite Hrun, Hacq, length_seq in Hr.
  pose proof (inv_releases _ HI) as Hrel.
  pose proof (inv_buffer _ HI) as Hbuf.
  assert (Hb : buffer t = []).
  { apply nil_length_inv.
    apply (f_equal length) in Hbuf. rewrite length_app in Hbuf. lia. }
  assert (Hperm : (pushed (log t)).*1 ≡ₚ seq 0 n).
  { apply submseteq_length_Permutation; [done|].
    rewrite length_fmap, length_seq.
    apply (f_equal length) in Hbuf. rewrite length_app in Hbuf. lia. }
  split; [done|]. split; [|split; [done|]].
  - intros i a Ha.
    assert (Hi : i ∈ (pushed (log t)).*1).
    { rewrite Hperm. apply elem_of_seq. apply lookup_lt_Some in Ha.
      fold n in Ha. lia. }
    apply pushed_fst_elem in Hi as [x Hx].
    pose proof (inv_trail _ HI _ _ Ha) as Htr. unfold trail in Htr.
    destruct (pc a); try done; rewrite Htr in Hx;
      apply list_elem_of_In in Hx; simpl in Hx; intuition discriminate.
  - rewrite Hbuf, Hb. by rewrite app_nil_r.
Qed.

Lemma step_quiet l t t' : Inv t -> Quiet t -> step l t = Some t' -> Quiet t'.
Proof.
  intros HI HQ. unfold step.
  destruct (enabled l t) eqn:Hen; [|discriminate].
  destruct (handle l t) as [t1|e] eqn:Hh; [|discriminate].
  intros [= <-].
  destruct (decide (fired (log t) = 0)) as [Hz|Hnz].
  - destruct l; simpl in Hh.
    + unfold _transform, acquire, acquire_resume in Hh.
      destruct (_ <=? _)%Z; simpl in Hh; injection Hh as <-;
        apply fired_zero_quiet; simpl; by readings.
    + revert Hh. by apply checkDone_quiet, fired_zero_quiet.
    + injection Hh as <-. apply fired_zero_quiet. simpl. by readings.
    + unfold _transform_after_acquire in Hh.
      destruct (calls t !! i); injection Hh as <-;
        apply fired_zero_quiet; simpl; [|done].
      rewrite <- app_assoc. by readings.
    + by eapply after_work_quiet.
    + by eapply flow_quiet.
    + injection Hh as <-. by apply fired_zero_quiet.
    + injection Hh as <-. by apply fired_zero_quiet.
  - destruct HQ as [Hfin Hrun]; [lia|].
    destruct (drained t HI Hfin Hrun) as (Hb & Hret & _).
    assert (Hpc : forall i p, pc_of i t = Some p -> p = Returned).
    { unfold pc_of. intros i p (a & Ha & ->)%fmap_Some. eauto. }
    destruct l; simpl in Hen, Hh.
    + rewrite Hfin in Hen. by rewrite andb_false_r in Hen.
    + rewrite Hfin in Hen. by rewrite andb_false_r in Hen.
    + destruct (pc_of i t) as [p|] eqn:Hp; [|discriminate].
      by rewrite (Hpc _ _ Hp) in Hen.
    + destruct (pc_of i t) as [p|] eqn:Hp; [|discriminate].
      by rewrite (Hpc _ _ Hp) in Hen.
    + destruct (pc_of i t) as [p|] eqn:Hp; [|discriminate].
      by rewrite (Hpc _ _ Hp) in Hen.
    + rewrite Hb in Hen. by rewrite andb_false_r in Hen.
    + injection Hh as <-. intros _. done.
    + injection Hh as <-. intros _. done.
Qed.

Lemma run_inv_quiet ls : forall t t',
  Inv t -> Quiet t -> run ls t = Some t' -> Inv t' /\ Quiet t'.
Proof.
  induction ls as [|l ls IH]; intros t t' HI HQ; simpl.
  - by intros [= <-].
  - destruct (step l t) as [t1|] eqn:Hstep; [|discriminate].
    apply IH; [by eapply step_inv|by eapply step_quiet].
Qed.

Lemma reachable_inv hwm ls t :
  run ls (new_ConcurrentTransform hwm) = Some t -> Inv t /\ Quiet t.
Proof.
  apply run_inv_quiet; [apply init_inv|]. by apply fired_zero_quiet.
Qed.

(** *** The chunks of the activations are those written *)

Lemma chunks_alter (cs : list Activation) i p :
  chunk <$> alter (fun a => {| chunk := chunk a; pc := p |}) i cs
  = chunk <$> cs.
Proof.
  apply list_eq. intros k. rewrite !list_lookup_fmap.
  destruct (decide (i = k)) as [->|Hne].
  - rewrite list_lookup_alter_eq. by destruct (cs !! k).
  - by rewrite list_lookup_alter_ne.
Qed.

Lemma checkDone_calls t t' : _checkDone t = Normal t' -> calls t' = calls t.
Proof. unfold _checkDone. by destruct (_ && _); intros [= <-]. Qed.

Lemma flow_chunks t t' :
  flow t = Normal t' -> chunk <$> calls t' = chunk <$> calls t.
Proof.
  unfold flow. destruct (buffer t) as [|ix rest]; [by intros [= <-]|].
  unfold emit_data, on_data.
  destruct (release _) as [[s next]|e]; simpl; [|discriminate].
  intros ->%checkDone_calls. destruct next; simpl; [|done].
  apply chunks_alter.
Qed.

Lemma step_chunks l t t' :
  Inv t ->
  step l t = Some t' ->
  chunk <$> calls t' = (chunk <$> calls t) ++ written [l].
Proof.
  intros HI. unfold step. destruct (enabled l t); [|discriminate].
  destruct (handle l t) as [t1|e] eqn:Hh; [|discriminate].
  intros [= <-]. destruct l; simpl in Hh; simpl; rewrite ?app_nil_r.
  - unfold _transform, acquire, acquire_resume in Hh.
    destruct (_ <=? _)%Z; simpl in Hh; injection Hh as <-; simpl;
      by rewrite fmap_app.
  - revert Hh. by intros ->%checkDone_calls.
  - injection Hh as <-. simpl. apply chunks_alter.
  - unfold _transform_after_acquire in Hh.
    destruct (calls t !! i); injection Hh as <-; [|done].
    simpl. apply chunks_alter.
  - rewrite after_work_equiv in Hh by done.
    unfold after_work_marked_first in Hh.
    destruct (pc <$> calls t !! i) as [p|]; [|by injection Hh as <-].
    destruct p as [| | |partial w|]; try by injection Hh as <-.
    destruct (flowing t && bool_decide (buffer t = [])) eqn:Hfl.
    + apply andb_prop in Hfl as [Hf Hb%bool_decide_eq_true].
      rewrite push_flowing in Hh by done.
      destruct (flow _) as [t2|e] eqn:Hflow; simpl in Hh; [|discriminate].
      apply checkDone_calls in Hh as ->.
      apply flow_chunks in Hflow as ->. simpl. apply chunks_alter.
    + rewrite push_buffering in Hh by done. simpl in Hh.
      apply checkDone_calls in Hh as ->. simpl. apply chunks_alter.
  - by apply flow_chunks.
  - by injection Hh as <-.
  - by injection Hh as <-.
Qed.

Lemma run_chunks ls : forall t t',
  Inv t ->
  run ls t = Some t' ->
  chunk <$> calls t' = (chunk <$> calls t) ++ written ls.
Proof.
  induction ls as [|l ls IH]; intros t t' HI; simpl.
  - intros [= <-]. by rewrite app_nil_r.
  - destruct (step l t) as [t1|] eqn:Hstep; [|discriminate].
    intros Hrun.
    rewrite (IH _ _ (step_inv _ _ _ HI Hstep) Hrun),
      (step_chunks _ _ _ HI Hstep).
    rewrite <- app_assoc. f_equal. unfold written. by destruct l.
Qed.

Lemma reachable_chunks hwm ls t :
  run ls (new_ConcurrentTransform hwm) = Some t ->
  chunk <$> calls t = written ls.
Proof. intros Hrun. by rewrite (run_chunks _ _ _ (init_inv hwm) Hrun). Qed.

(** A pushed item is the enrichment of the chunk of its activation by the
    settled worker value. *)
Lemma pushed_enriched t i x :
  Inv t -> (i, x) ∈ pushed (log t) ->
  exists a r,
    calls t !! i = Some a
    /\ EvSettled i r ∈ log t
    /\ x = <[ "changedAt" := VNum r ]> (chunk a).
Proof.
  intros HI Hx. apply pushed_elem in Hx.
  destruct (calls t !! i) as [a|] eqn:Ha.
  - pose proof (inv_trail _ HI _ _ Ha) as Htr. unfold trail in Htr.
    destruct (pc a);
      try (rewrite Htr in Hx; apply list_elem_of_In in Hx; simpl in Hx;
           intuition discriminate).
    destruct Htr as [r Htr]. exists a, r. split; [done|]. split.
    + assert (He : EvSettled i r ∈ events_of i (log t))
        by (rewrite Htr; set_solver).
      apply list_elem_of_In, List.filter_In in He as [He _].
      by apply list_elem_of_In.
    + rewrite Htr in Hx. apply list_elem_of_In in Hx. simpl in Hx.
      destruct Hx as [|[|[|[|[Hx|[]]]]]]; try discriminate. congruence.
  - apply lookup_ge_None in Ha. rewrite (inv_fresh _ HI) in Hx by done.
    by apply not_elem_of_nil in Hx.
Qed.

(** *** The gate within the pipeline *)

Lemma checkDone_gate t t' :
  _checkDone t = Normal t' ->
  _semaphore t' = _semaphore t /\ calls t' = calls t.
Proof. unfold _checkDone. by destruct (_ && _); intros [= <-]. Qed.

Lemma checkDone_capped t t' : Capped t -> _checkDone t = Normal t' -> Capped t'.
Proof.
  intros HC [Hs Hc]%checkDone_gate. unfold Capped. by rewrite Hs, Hc.
Qed.

Lemma flow_capped t t' : Capped t -> flow t = Normal t' -> Capped t'.
Proof.
  intros [Hle Hw]. unfold flow. destruct (buffer t) as [|ix rest].
  - by intros [= <-].
  - unfold emit_data, on_data.
    destruct (release_effect (_semaphore (emit (EvData ix.1 ix.2)
                                            (set_buffer rest t))))
      as (s & next & -> & Hr & Hsz & _).
    simpl in *. apply checkDone_capped. unfold Capped.
    destruct next; simpl; rewrite Hr, Hsz; (split; [lia|]); intros; lia.
Qed.

Lemma step_capped l t t' :
  Inv t -> Capped t -> step l t = Some t' -> Capped t'.
Proof.
  intros HI [Hle Hw]. unfold step.
  destruct (enabled l t) eqn:Hen; [|discriminate].
  destruct (handle l t) as [t1|e] eqn:Hh; [|discriminate].
  intros [= <-]. destruct l; simpl in Hen, Hh.
  - apply andb_prop in Hen as [Hwr%negb_true_iff _].
    assert (Hpost : forall i a, calls t !! i = Some a -> pc a <> AcquireWoken).
    { intros i a Ha Hp. destruct (inv_serial _ HI i a Ha); [by rewrite Hp|].
      congruence. }
    unfold _transform, acquire, acquire_resume in Hh.
    destruct (Z.leb_spec (_size (_semaphore t)) (_running (_semaphore t)));
      simpl in Hh; injection Hh as <-; unfold Capped; simpl;
      (split; [lia|]); intros i a Ha; snoc_cases Ha;
      try discriminate; intros Hp; by destruct (Hpost _ _ Ha).
  - revert Hh. apply checkDone_capped. by split.
  - unfold pc_of in Hen.
    destruct (pc <$> calls t !! i) as [[]|] eqn:Hpc; try discriminate.
    apply fmap_Some in Hpc as (a0 & Ha0 & Hpc0). symmetry in Hpc0.
    injection Hh as <-. unfold Capped. simpl.
    pose proof (Hw _ _ Ha0 Hpc0). split; [lia|].
    intros k a Ha. alter_cases Ha as Hc Hp; [|congruence].
    intros Hk. destruct (inv_serial _ HI _ _ Ha); [by rewrite Hk|].
    destruct (inv_serial _ HI _ _ Ha0); [by rewrite Hpc0|]. lia.
  - unfold _transform_after_acquire in Hh.
    destruct (calls t !! i) as [a0|] eqn:Ha0; injection Hh as <-;
      [|by split].
    unfold Capped. simpl. split; [done|].
    intros k a Ha. alter_cases Ha as Hc Hp; [by eauto|congruence].
  - rewrite after_work_equiv in Hh by done.
    unfold after_work_marked_first in Hh.
    destruct (pc <$> calls t !! i) as [p|] eqn:Hpc;
      [|injection Hh as <-; by split].
    destruct p as [| | |partial w|]; try (injection Hh as <-; by split).
    set (r := match w with Immediate v => v | Deferred => now end) in Hh.
    assert (HS : Capped (settled i r (<[ "changedAt" := VNum r ]> partial) t)).
    { unfold Capped. simpl. split; [done|].
      intros k a Ha. alter_cases Ha as Hc Hp; [by eauto|congruence]. }
    destruct (flowing t && bool_decide (buffer t = [])) eqn:Hfl.
    + apply andb_prop in Hfl as [Hf Hb%bool_decide_eq_true].
      rewrite push_flowing in Hh by done.
      destruct (flow _) as [t2|e] eqn:Hflow; simpl in Hh; [|discriminate].
      revert Hh. apply checkDone_capped. revert Hflow. apply flow_capped.
      unfold settled in HS. simpl in HS. rewrite Hb in HS. exact HS.
    + rewrite push_buffering in Hh by done. simpl in Hh.
      revert Hh. by apply checkDone_capped.
  - revert Hh. by apply flow_capped.
  - injection Hh as <-. by split.
  - injection Hh as <-. by split.
Qed.

Lemma step_size l t t' :
  Inv t ->
  step l t = Some t' -> _size (_semaphore t') = _size (_semaphore t).
Proof.
  intros HI.
  assert (Hflow : forall t t', flow t = Normal t' ->
            _size (_semaphore t') = _size (_semaphore t)).
  { intros u u'. unfold flow. destruct (buffer u) as [|ix rest];
      [by intros [= <-]|].
    unfold emit_data, on_data.
    destruct (release_effect (_semaphore (emit (EvData ix.1 ix.2)
                                            (set_buffer rest u))))
      as (s & next & -> & _ & Hsz & _).
    simpl. intros [-> _]%checkDone_gate. by destruct next. }
  unfold step. destruct (enabled l t); [|discriminate].
  destruct (handle l t) as [t1|e] eqn:Hh; [|discriminate].
  intros [= <-]. destruct l; simpl in Hh.
  - unfold _transform, acquire, acquire_resume in Hh.
    by destruct (_ <=? _)%Z; simpl in Hh; injection Hh as <-.
  - by apply checkDone_gate in Hh as [-> _].
  - by injection Hh as <-.
  - unfold _transform_after_acquire in Hh.
    by destruct (calls t !! i); injection Hh as <-.
  - rewrite after_work_equiv in Hh by done.
    unfold after_work_marked_first in Hh.
    destruct (pc <$> calls t !! i) as [p|]; [|by injection Hh as <-].
    destruct p as [| | |partial w|]; try by injection Hh as <-.
    destruct (flowing t && bool_decide (buffer t = [])) eqn:Hfl.
    + apply andb_prop in Hfl as [Hf Hb%bool_decide_eq_true].
      rewrite push_flowing in Hh by done.
      destruct (flow _) as [t2|e] eqn:Hfl2; simpl in Hh; [|discriminate].
      apply checkDone_gate in Hh as [-> _]. by apply Hflow in Hfl2 as ->.
    + rewrite push_buffering in Hh by done. simpl in Hh.
      by apply checkDone_gate in Hh as [-> _].
  - by apply Hflow.
  - by injection Hh as <-.
  - by injection Hh as <-.
Qed.

(** Never more releases than acquisitions. *)
Lemma running_nonneg t : Inv t -> (0 <= _running (_semaphore t))%Z.
Proof.
  intros HI. rewrite (inv_running _ HI), (inv_releases _ HI).
  assert (Hsub : (pushed (log t)).*1 ⊆+ acquired (log t)).
  { apply NoDup_submseteq; [apply HI|]. intros i Hi.
    apply pushed_fst_elem in Hi as [x Hx].
    assert (He : EvAcquired i ∈ events_of i (log t)).
    { destruct (calls t !! i) as [a|] eqn:Ha.
      - pose proof (inv_trail _ HI _ _ Ha) as Htr. unfold trail in Htr.
        destruct (pc a);
          try (rewrite Htr in Hx; apply list_elem_of_In in Hx; simpl in Hx;
               intuition discriminate).
        destruct Htr as [r ->]. apply list_elem_of_here.
      - apply lookup_ge_None in Ha. rewrite (inv_fresh _ HI) in Hx by done.
        by apply not_elem_of_nil in Hx. }
    apply list_elem_of_In, List.filter_In in He as [He _].
    apply list_elem_of_omap. exists (EvAcquired i).
    by rewrite list_elem_of_In. }
  apply submseteq_length in Hsub. rewrite length_fmap in Hsub.
  pose proof (f_equal length (inv_buffer _ HI)) as Hb.
  rewrite length_app in Hb. lia.
Qed.

(** X10. Driven as Node drives a writable side, one chunk at a time, the
    stage keeps its gate within the capacity at every point of every run. *)
Lemma pipeline_capacity (hwm : Z) (ls : list Label) (t : ConcurrentTransform) :
  (0 <= hwm)%Z ->
  run ls (new_ConcurrentTransform hwm) = Some t ->
  (0 <= running (_semaphore t) <= hwm)%Z.
Proof.
  intros Hhwm Hrun.
  assert (Hgen : forall ls t t',
    Inv t -> Capped t -> run ls t = Some t' ->
    Capped t' /\ _size (_semaphore t') = _size (_semaphore t)).
  { clear. induction ls as [|l ls IH]; intros t t' HI HC; simpl.
    - by intros [= <-].
    - destruct (step l t) as [t1|] eqn:Hstep; [|discriminate].
      intros Hrun. rewrite <- (step_size _ _ _ HI Hstep).
      apply IH; [by eapply step_inv|by eapply step_capped|done]. }
  destruct (Hgen ls _ t (init_inv hwm)) as [[Hle _] Hsz]; [|done|].
  { split; simpl; [done|]. intros i a Ha. by rewrite lookup_nil in Ha. }
  simpl in Hsz. destruct (reachable_inv _ _ _ Hrun) as [HI _].
  pose proof (running_nonneg t HI). unfold running. lia.
Qed.

(** *** The properties of the stage *)

(** The completion callback is only ever called once [_final] has stored
    it and with the gate counting nobody. *)
Lemma fires_only_when_quiet (hwm : Z) (ls : list Label)
    (t : ConcurrentTransform) :
  run ls (new_ConcurrentTransform hwm) = Some t ->
  0 < fired (log t) ->
  onFinal t = true /\ running (_semaphore t) = 0%Z.
Proof. intros Hrun. by destruct (reachable_inv _ _ _ Hrun) as [_ HQ]. Qed.

(** C2, evaluated where it fails.  One item is written and admitted;
    [_final] is called while its worker is outstanding and stores the
    callback; the worker settles and [push] emits 'data' at once (flowing,
    nothing buffered).  The listener releases and [_checkDone] calls the
    callback; back in [_transform], [_checkDone] finds the same condition
    and calls it again: two calls in one run. *)
Theorem completion_fires_twice :
  exists t,
    run run_final_then_settled (new_ConcurrentTransform 16) = Some t
    /\ onFinal t = true
    /\ running (_semaphore t) = 0%Z
    /\ fired (log t) = 2.
Proof. eexists. split; [by vm_compute|]. by vm_compute. Qed.

(** C4. In every run in which the completion callback has been called,
    the activations of [_transform] are exactly the chunks written, as many
    items were pushed as chunks were written, each activation pushed
    exactly once (the ranks of the pushed items are a permutation of the
    ranks of the written chunks), every pushed item is the enrichment of
    the chunk of its rank, and the items emitted to the consumer are the
    pushed ones, in the same order, each once. *)
Theorem conservation (hwm : Z) (ls : list Label) (t : ConcurrentTransform) :
  run ls (new_ConcurrentTransform hwm) = Some t ->
  0 < fired (log t) ->
  chunk <$> calls t = written ls
  /\ length (pushed (log t)) = length (written ls)
  /\ (pushed (log t)).*1 ≡ₚ seq 0 (length (written ls))
  /\ (forall i x, (i, x) ∈ pushed (log t) ->
        exists c r, written ls !! i = Some c
                    /\ x = <[ "changedAt" := VNum r ]> c)
  /\ sunk (log t) = pushed (log t).
Proof.
  intros Hrun Hfired.
  destruct (reachable_inv _ _ _ Hrun) as [HI HQ].
  pose proof (reachable_chunks _ _ _ Hrun) as Hch.
  destruct (HQ Hfired) as [Hfin Hr].
  destruct (drained t HI Hfin Hr) as (_ & _ & Hperm & Hsunk).
  assert (Hlen : length (calls t) = length (written ls)).
  { by rewrite <- Hch, length_fmap. }
  rewrite Hlen in Hperm.
  split; [done|]. split; [|split; [done|split; [|done]]].
  - apply Permutation_length in Hperm.
    by rewrite length_fmap, length_seq in Hperm.
  - intros i x Hx.
    destruct (pushed_enriched t i x HI Hx) as (a & r & Ha & _ & ->).
    exists (chunk a), r. split; [|done].
    by rewrite <- Hch, list_lookup_fmap, Ha.
Qed.

Lemma conservation_witness :
  match run run_settled_then_final (new_ConcurrentTransform 16) with
  | Some t => 0 < fired (log t)
              /\ length (pushed (log t))
                 = length (written run_settled_then_final)
  | None => False
  end.
Proof.
  destruct (run run_settled_then_final (new_ConcurrentTransform 16))
    as [t|] eqn:Hrun.
  - assert (Hf : 0 < fired (log t)).
    { vm_compute in Hrun. injection Hrun as <-. vm_compute. lia. }
    split; [exact Hf|].
    exact (proj1 (proj2 (conservation 16 run_settled_then_final t Hrun Hf))).
  - by vm_compute in Hrun.
Defined.

(** C7. At every point of every run, the events of one activation of
    [_transform] are an initial part of: the gate acquired, [callback()]
    called, the worker called and awaited, the worker settled, the item
    pushed.  So no [callback()] precedes the acquisition and no push
    precedes the worker's value. *)
Theorem transform_order (hwm : Z) (ls : list Label) (t : ConcurrentTransform)
    (i : nat) :
  run ls (new_ConcurrentTransform hwm) = Some t ->
  exists r x, events_of i (log t) `prefix_of` course i r x.
Proof.
  intros Hrun. destruct (reachable_inv _ _ _ Hrun) as [HI _].
  destruct (calls t !! i) as [a|] eqn:Ha.
  - pose proof (inv_trail _ HI _ _ Ha) as Htr. unfold trail in Htr.
    unfold course. destruct (pc a).
    + exists 0%Z, ∅. rewrite Htr. apply prefix_nil.
    + exists 0%Z, ∅. rewrite Htr. apply prefix_nil.
    + exists 0%Z, ∅. rewrite Htr. by eexists.
    + exists 0%Z, ∅. rewrite Htr. by eexists.
    + destruct Htr as [r ->]. by eexists r, _.
  - apply lookup_ge_None in Ha. exists 0%Z, ∅.
    rewrite (inv_fresh _ HI) by done. apply prefix_nil.
Qed.

Lemma transform_order_witness :
  match run run_settled_then_final (new_ConcurrentTransform 16) with
  | Some t => exists r x, events_of 0 (log t) `prefix_of` course 0 r x
  | None => False
  end.
Proof.
  destruct (run run_settled_then_final (new_ConcurrentTransform 16))
    as [t|] eqn:Hrun.
  - exact (transform_order 16 run_settled_then_final t 0 Hrun).
  - by vm_compute in Hrun.
Defined.

(** C9. Every item pushed in a run is the chunk written at its rank with
    the property [changedAt] set to the value the worker settled with:
    [changedAt] holds that value, and [id] and every other property are
    those of the chunk. *)
Theorem enrichment_frame (hwm : Z) (ls : list Label) (t : ConcurrentTransform)
    (i : nat) (x : Item) :
  run ls (new_ConcurrentTransform hwm) = Some t ->
  (i, x) ∈ pushed (log t) ->
  exists c r,
    written ls !! i = Some c
    /\ EvSettled i r ∈ log t
    /\ x = <[ "changedAt" := VNum r ]> c
    /\ x !! "changedAt" = Some (VNum r)
    /\ x !! "id" = c !! "id"
    /\ (forall k, k <> "changedAt" -> x !! k = c !! k).
Proof.
  intros Hrun Hx. destruct (reachable_inv _ _ _ Hrun) as [HI _].
  destruct (pushed_enriched t i x HI Hx) as (a & r & Ha & Hs & ->).
  exists (chunk a), r. repeat split; try done.
  - by rewrite <- (reachable_chunks _ _ _ Hrun), list_lookup_fmap, Ha.
  - apply lookup_insert_eq.
  - by apply lookup_insert_ne.
  - intros k Hk. by apply lookup_insert_ne.
Qed.

Lemma enrichment_frame_witness :
  match run run_settled_then_final (new_ConcurrentTransform 16) with
  | Some t =>
      exists c r,
        written run_settled_then_final !! 0 = Some c
        /\ EvSettled 0 r ∈ log t
        /\ (<[ "changedAt" := VNum 100 ]> {[ "id" := VNum 1 ]} : Item)
           = <[ "changedAt" := VNum r ]> c
        /\ (<[ "changedAt" := VNum 100 ]> {[ "id" := VNum 1 ]} : Item)
             !! "changedAt" = Some (VNum r)
        /\ (<[ "changedAt" := VNum 100 ]> {[ "id" := VNum 1 ]} : Item) !! "id"
           = c !! "id"
        /\ (forall k, k <> "changedAt" ->
              (<[ "changedAt" := VNum 100 ]> {[ "id" := VNum 1 ]} : Item) !! k
              = c !! k)
  | None => False
  end.
Proof.
  destruct (run run_settled_then_final (new_ConcurrentTransform 16))
    as [t|] eqn:Hrun.
  - apply (enrichment_frame 16 run_settled_then_final t 0 _ Hrun).
    vm_compute in Hrun. injection Hrun as <-. simpl.
    apply list_elem_of_singleton. reflexivity.
  - by vm_compute in Hrun.
Defined.

(** C6, as the code has it.  The gate is released by the 'data' listener:
    at every point of a run there have been as many releases as 'data'
    emissions, and the pushed items are those emitted followed by those
    still buffered.  The step in which a worker settles and its item is
    pushed releases the gate only when the readable side is flowing with
    nothing buffered, the item being emitted within the push; otherwise
    the item joins the buffer and the gate is left as it was, until the
    item is read. *)
Theorem release_on_data (hwm : Z) (ls : list Label) (t : ConcurrentTransform) :
  run ls (new_ConcurrentTransform hwm) = Some t ->
  releases (log t) = length (sunk (log t))
  /\ pushed (log t) = sunk (log t) ++ buffer t
  /\ forall i now t',
       step (SettleWork i now) t = Some t' ->
       if flowing t && bool_decide (buffer t = [])
       then releases (log t') = S (releases (log t))
            /\ _running (_semaphore t') = (_running (_semaphore t) - 1)%Z
            /\ buffer t' = []
       else releases (log t') = releases (log t)
            /\ _running (_semaphore t') = _running (_semaphore t)
            /\ exists x, pushed (log t') = pushed (log t) ++ [(i, x)]
                         /\ buffer t' = buffer t ++ [(i, x)].
Proof.
  intros Hrun. destruct (reachable_inv _ _ _ Hrun) as [HI _].
  split; [apply HI|]. split; [apply HI|].
  intros i now t'. unfold step.
  destruct (enabled _ t) eqn:Hen; [|discriminate]. simpl in Hen.
  unfold pc_of in Hen. simpl. rewrite after_work_equiv by done.
  unfold after_work_marked_first.
  destruct (pc <$> calls t !! i) as [p|]; [|discriminate].
  destruct p as [| | |partial w|]; try discriminate.
  destruct (flowing t && bool_decide (buffer t = [])) eqn:Hfl.
  - apply andb_prop in Hfl as [Hf Hb%bool_decide_eq_true].
    unfold push. simpl. rewrite Hf, Hb. simpl.
    unfold emit_data, on_data. simpl.
    destruct (release (_semaphore t)) as [[s next]|e] eqn:Hrel; simpl;
      [|discriminate].
    destruct (release_effect (_semaphore t))
      as (s' & next' & Hrel' & Hr & _).
    rewrite Hrel in Hrel'. injection Hrel' as <- <-.
    destruct (_checkDone _) as [t1|e] eqn:Hc1; simpl; [|discriminate].
    destruct (_checkDone t1) as [t2|e] eqn:Hc2; [|discriminate].
    intros [= <-].
    unfold _checkDone in Hc1, Hc2.
    destruct (_ && _) in Hc1; injection Hc1 as <-;
      destruct (_ && _) in Hc2; injection Hc2 as <-;
      destruct next; simpl; rewrite <- ?app_assoc; readings;
      (split; [lia|done]).
  - unfold push. simpl. rewrite Hfl. simpl.
    destruct (_checkDone _) as [t1|e] eqn:Hc1; [|discriminate].
    intros [= <-]. unfold _checkDone in Hc1.
    destruct (_ && _) in Hc1; injection Hc1 as <-; simpl;
      rewrite <- ?app_assoc; readings; (split; [lia|]); (split; [done|]);
      eexists; split; reflexivity.
Qed.

Lemma release_on_data_witness :
  match run run_paused_then_read (new_ConcurrentTransform 16) with
  | Some t =>
      (releases (log t) = length (sunk (log t))
       /\ pushed (log t) = sunk (log t) ++ buffer t)
      /\ releases (log t) = 1
      /\ (sunk (log t)).*1 = [0]
      /\ buffer t = []
  | None => False
  end
  /\ match run run_paused (new_ConcurrentTransform 16) with
     | Some t =>
         match step (SettleWork 0 101) t with
         | Some t' =>
             (releases (log t') = releases (log t)
              /\ _running (_semaphore t') = _running (_semaphore t))
             /\ (pushed (log t')).*1 = [0]
             /\ (buffer t').*1 = [0]
             /\ _running (_semaphore t') = 1%Z
         | None => False
         end
     | None => False
     end.
Proof.
  split.
  - destruct (run run_paused_then_read (new_ConcurrentTransform 16))
      as [t|] eqn:Hrun; [|by vm_compute in Hrun].
    destruct (release_on_data 16 run_paused_then_read t Hrun)
      as (H1 & H2 & _).
    split; [exact (conj H1 H2)|].
    vm_compute in Hrun. injection Hrun as <-. by vm_compute.
  - destruct (run run_paused (new_ConcurrentTransform 16))
      as [t|] eqn:Hrun; [|by vm_compute in Hrun].
    destruct (step (SettleWork 0 101) t) as [t'|] eqn:Hstep;
      [|vm_compute in Hrun; injection Hrun as <-; by vm_compute in Hstep].
    destruct (release_on_data 16 run_paused t Hrun) as (_ & _ & H3).
    specialize (H3 0 101%Z t' Hstep).
    assert (Hfl : flowing t && bool_decide (buffer t = []) = false).
    { vm_compute in Hrun. injection Hrun as <-. reflexivity. }
    rewrite Hfl in H3. destruct H3 as (H4 & H5 & _).
    split; [exact (conj H4 H5)|].
    vm_compute in Hrun. injection Hrun as <-.
    vm_compute in Hstep. injection Hstep as <-. by vm_compute.
Defined.

(** C6, refuted as stated: with the consumer paused, the worker of item 0
    settles and the item is pushed, yet no release has happened and
    [_running] still is 1. *)
Lemma release_deferred_while_paused :
  exists t t',
    run run_paused (new_ConcurrentTransform 16) = Some t
    /\ step (SettleWork 0 101) t = Some t'
    /\ (pushed (log t')).*1 = [0]
    /\ releases (log t') = 0
    /\ _running (_semaphore t) = 1%Z
    /\ _running (_semaphore t') = 1%Z.
Proof. eexists _, _. split; [by vm_compute|]. by vm_compute. Qed.

(** * Further properties *)

(** ** More on the generator and the worker *)

(** X1. [generate(size)] with [size <= 0] yields nothing: the first pull
    already answers [done], whatever the bound on pulls. *)
Theorem generate_nothing (size : Z) (fuel : nat) :
  (size <= 0)%Z ->
  0 < fuel ->
  generate size SuspendedStart = (Done, Completed)
  /\ drain size fuel SuspendedStart = Some ([], Completed).
Proof.
  intros Hsize Hfuel.
  assert (Hg : generate size SuspendedStart = (Done, Completed)).
  { simpl. unfold generate_loop.
    destruct (Z.ltb_spec 0 size); [lia|reflexivity]. }
  split; [exact Hg|].
  destruct fuel as [|fuel]; [lia|]. cbn [drain]. by rewrite Hg.
Qed.

Lemma generate_nothing_witness :
  drain (-2) 1 SuspendedStart = Some ([], Completed).
Proof.
  exact (proj2 (generate_nothing (-2) 1 ltac:(lia) ltac:(lia))).
Defined.

(** X2. The worker called on a chunk's [id]: with a numeric id it defers
    to the timer exactly when the id is a multiple of 8, negative ids
    included, and otherwise returns the clock value at once; with no [id],
    or an undefined one, it returns the clock value at once. *)
Theorem work_on_id (c : Item) (now : Z) :
  match c !! "id" with
  | Some (VNum n) =>
      (work (get_prop "id" c) now = Deferred <-> exists q, n = (8 * q)%Z)
      /\ (work (get_prop "id" c) now <> Deferred ->
          work (get_prop "id" c) now = Immediate now)
  | Some VUndefined | None => work (get_prop "id" c) now = Immediate now
  end.
Proof.
  unfold get_prop, work. destruct (c !! "id") as [[|n]|]; simpl; try done.
  destruct (Z.eqb_spec (Z.rem n 8) 0) as [Hz|Hnz].
  - split; [|by intros []]. split; [intros _|done].
    apply Z.rem_divide in Hz; [|lia]. destruct Hz as [q ->].
    exists q. lia.
  - split; [|done]. split; [discriminate|]. intros [q ->]. exfalso.
    apply Hnz. apply Z.rem_divide; [lia|]. exists q. lia.
Qed.

(** ** More on the gate on its own *)

Module GateMore.
Import Gate.

Lemma exec_holders cs : forall g g',
  _running (gate g) = holders g ->
  exec cs g = Normal g' ->
  _running (gate g') = holders g'.
Proof.
  induction cs as [|c cs IH]; intros g g' Hg; simpl.
  - by intros [= <-].
  - destruct (step c g) as [g1|e] eqn:Hstep; simpl; [|discriminate].
    apply IH. unfold holders in *.
    destruct g as [[r sz q] n m a rel].
    destruct c; unfold step, acquire, release, acquire_resume in Hstep;
      simpl in *.
    + destruct (sz <=? r)%Z; simpl in Hstep; injection Hstep as <-; simpl;
        rewrite ?length_app; simpl; lia.
    + destruct q; simpl in Hstep; injection Hstep as <-; simpl; lia.
    + destruct m; simpl in Hstep; injection Hstep as <-; simpl;
        rewrite ?length_app; simpl; lia.
Qed.

(** X3. At every point of every use of a gate, [_running] is the number of
    callers admitted minus the number of releases: the counter counts the
    holders exactly, also when it is driven below zero or above the
    capacity. *)
Theorem running_counts_holders (size : Z) (cs : list Call) (g : Run) :
  exec cs (init size) = Normal g ->
  running (gate g) = holders g
  /\ released g = count_releases cs.
Proof.
  intros Hexec. split; [by apply (exec_holders cs (init size))|].
  assert (Hgen : forall cs g g', exec cs g = Normal g' ->
            released g' = released g + count_releases cs).
  { clear. induction cs as [|c cs IH]; intros g g'; simpl.
    - intros [= <-]. unfold count_releases. simpl. lia.
    - destruct (step c g) as [g1|e] eqn:Hstep; simpl; [|discriminate].
      intros ->%IH. unfold count_releases.
      destruct c; unfold step, acquire, release, acquire_resume in Hstep;
        simpl in *.
      + by destruct (_ <=? _)%Z; simpl in Hstep; injection Hstep as <-.
      + destruct (_resolvers (gate g)); simpl in Hstep;
          injection Hstep as <-; simpl; lia.
      + by destruct (microtasks g); simpl in Hstep; injection Hstep as <-. }
  by rewrite (Hgen _ _ _ Hexec).
Qed.

Lemma running_counts_holders_witness :
  running {| _running := -1; _size := 2; _resolvers := [] |}
  = holders {| gate := {| _running := -1; _size := 2; _resolvers := [] |};
               issued := 1; microtasks := []; admitted := [0];
               released := 2 |}.
Proof.
  pose proof (running_counts_holders 2
                [CallRelease; CallAcquire; CallRelease] _ eq_refl) as H.
  exact (proj1 H).
Defined.

(** X4. No caller is lost or served twice: at every point, the callers
    admitted, those woken and waiting to resume, and those suspended in
    the queue are, together, each caller so far exactly once; there are as
    many of them as calls of [acquire]. *)
Theorem every_caller_accounted (size : Z) (cs : list Call) (g : Run) :
  exec cs (init size) = Normal g ->
  issued g = count_acquires cs
  /\ admitted g ++ microtasks g ++ _resolvers (gate g) ≡ₚ seq 0 (issued g).
Proof.
  intros Hexec. split; [|by apply (GateFacts.exec_line cs (init size))].
  assert (Hgen : forall cs g g', exec cs g = Normal g' ->
            issued g' = issued g + count_acquires cs).
  { clear. induction cs as [|c cs IH]; intros g g'; simpl.
    - intros [= <-]. unfold count_acquires. simpl. lia.
    - destruct (step c g) as [g1|e] eqn:Hstep; simpl; [|discriminate].
      intros ->%IH. unfold count_acquires.
      destruct c; unfold step, acquire, release, acquire_resume in Hstep;
        simpl in *.
      + destruct (_ <=? _)%Z; simpl in Hstep; injection Hstep as <-;
          simpl; lia.
      + by destruct (_resolvers (gate g)); simpl in Hstep;
          injection Hstep as <-.
      + by destruct (microtasks g); simpl in Hstep; injection Hstep as <-. }
  by rewrite (Hgen _ _ _ Hexec).
Qed.

Lemma every_caller_accounted_witness :
  [0; 1; 3; 2] ++ [] ++ [] ≡ₚ seq 0 4.
Proof.
  eassert (Hexec : exec [CallAcquire; CallAcquire; CallAcquire; CallRelease;
                         CallAcquire; CallRelease; RunMicrotask] (init 2)
                   = Normal _) by (vm_compute; reflexivity).
  exact (proj2 (every_caller_accounted _ _ _ Hexec)).
Defined.

Lemma count_releases_cons c cs :
  count_releases (c :: cs)
  = (if bool_decide (c = CallRelease) then 1 else 0) + count_releases cs.
Proof. unfold count_releases. simpl. by case_bool_decide. Qed.

(** Each release moves every waiter one place forward; nothing else moves
    a waiter. *)
Lemma queue_advances cs : forall g g' k c,
  _resolvers (gate g) !! k = Some c ->
  count_releases cs <= k ->
  exec cs g = Normal g' ->
  _resolvers (gate g') !! (k - count_releases cs) = Some c.
Proof.
  induction cs as [|x cs IH]; intros g g' k c Hk Hle; simpl.
  - intros [= <-]. unfold count_releases. simpl. by rewrite Nat.sub_0_r.
  - destruct (step x g) as [g1|e] eqn:Hstep; simpl; [|discriminate].
    intros Hexec. rewrite count_releases_cons in *.
    destruct g as [[r sz q] n m a rel].
    destruct x; unfold step, acquire, release, acquire_resume in Hstep;
      simpl in *.
    + apply (IH g1 g' k c); [|lia|done].
      destruct (sz <=? r)%Z; simpl in Hstep; injection Hstep as <-; simpl;
        [by apply lookup_app_l_Some|done].
    + destruct q as [|next rest]; [by rewrite lookup_nil in Hk|].
      simpl in Hstep. injection Hstep as <-.
      destruct k as [|k]; [lia|]. simpl in Hk.
      replace (S k - (1 + count_releases cs)) with (k - count_releases cs)
        by lia.
      eapply IH; [|lia|exact Hexec]. done.
    + apply (IH g1 g' k c); [|lia|done].
      by destruct m; simpl in Hstep; injection Hstep as <-.
Qed.

(** X5. First come, first woken.  A caller suspended with [k] callers
    ahead of it in the queue is still suspended, now at the head, after
    any calls among which exactly [k] are releases; the next release is the
    one that calls its resolver. *)
Theorem woken_by_its_release (cs : list Call) (g g1 : Run) (k : nat)
    (c : Resolver) :
  _resolvers (gate g) !! k = Some c ->
  count_releases cs = k ->
  exec cs g = Normal g1 ->
  head (_resolvers (gate g1)) = Some c
  /\ exists g2,
       step CallRelease g1 = Normal g2
       /\ microtasks g2 = microtasks g1 ++ [c]
       /\ _resolvers (gate g2) = tail (_resolvers (gate g1)).
Proof.
  intros Hk Hcount Hexec.
  pose proof (queue_advances cs g g1 k c Hk ltac:(lia) Hexec) as Hhead.
  rewrite Hcount, Nat.sub_diag in Hhead.
  destruct (_resolvers (gate g1)) as [|c' rest] eqn:Hq; [done|].
  simpl in Hhead. injection Hhead as ->. split; [done|].
  unfold step, release. rewrite Hq. simpl. eauto.
Qed.

Lemma woken_by_its_release_witness :
  exists g2,
    step CallRelease
      {| gate := {| _running := 1; _size := 1; _resolvers := [2] |};
         issued := 3; microtasks := []; admitted := [0; 1]; released := 1 |}
    = Normal g2
    /\ microtasks g2 = [] ++ [2].
Proof.
  pose (g := {| gate := {| _running := 1; _size := 1; _resolvers := [1; 2] |};
                issued := 3; microtasks := []; admitted := [0];
                released := 0 |}).
  eassert (Hexec : exec [CallRelease; RunMicrotask] g = Normal _)
    by (vm_compute; reflexivity).
  destruct (woken_by_its_release [CallRelease; RunMicrotask] g _ 1 2
              eq_refl eq_refl Hexec) as (_ & g2 & Hstep & Hm & _).
  exists g2. split; [exact Hstep|exact Hm].
Defined.

(** X7. As long as nobody calls [acquire] while a woken waiter has yet to
    resume, a gate of capacity [size >= 0] is never over capacity: the
    counter plus the woken waiters, and so the holders, stay within
    [size]. *)
Theorem capacity_when_paced (size : Z) (cs : list Call) (g : Run) :
  (0 <= size)%Z ->
  paced cs (init size) = true ->
  exec cs (init size) = Normal g ->
  (running (gate g) + Z.of_nat (length (microtasks g)) <= size)%Z
  /\ (holders g <= size)%Z.
Proof.
  intros Hsize Hpaced Hexec.
  assert (Hgen : forall cs g g',
    (_running (gate g) + Z.of_nat (length (microtasks g))
     <= _size (gate g))%Z ->
    paced cs g = true ->
    exec cs g = Normal g' ->
    (_running (gate g') + Z.of_nat (length (microtasks g'))
     <= _size (gate g'))%Z
    /\ _size (gate g') = _size (gate g)).
  { clear. induction cs as [|c cs IH]; intros g g' Hg; simpl.
    - by intros _ [= <-].
    - destruct (step c g) as [g1|e] eqn:Hstep; simpl;
        [|by rewrite andb_false_r].
      intros [Hc Hp]%andb_prop Hexec.
      destruct (IH g1 g') as [H1 H2]; [|done|done|].
      + destruct g as [[r sz q] n m a rel].
        destruct c; unfold step, acquire, release, acquire_resume in Hstep;
          simpl in *.
        * apply bool_decide_eq_true in Hc as ->.
          destruct (Z.leb_spec sz r); simpl in Hstep;
            injection Hstep as <-; simpl in *; lia.
        * destruct q; simpl in Hstep; injection Hstep as <-; simpl;
            rewrite ?length_app; simpl; lia.
        * destruct m; simpl in Hstep; injection Hstep as <-; simpl in *;
            lia.
      + split; [done|]. rewrite H2.
        destruct g as [[r sz q] n m a rel].
        destruct c; unfold step, acquire, release, acquire_resume in Hstep;
          simpl in *.
        * by destruct (sz <=? r)%Z; simpl in Hstep; injection Hstep as <-.
        * by destruct q; simpl in Hstep; injection Hstep as <-.
        * by destruct m; simpl in Hstep; injection Hstep as <-. }
  destruct (Hgen cs (init size) g) as [Hle Hsz]; [simpl; lia|done|done|].
  simpl in Hsz. rewrite Hsz in Hle. split; [exact Hle|].
  rewrite <- (exec_holders cs (init size) g eq_refl Hexec). lia.
Qed.

Lemma capacity_when_paced_witness :
  (running {| _running := 1; _size := 1; _resolvers := [] |}
   + Z.of_nat (length ([] : list nat)) <= 1)%Z.
Proof.
  pose (cs := [CallAcquire; CallAcquire; CallRelease; RunMicrotask]).
  eassert (Hexec : exec cs (init 1) = Normal _) by (vm_compute; reflexivity).
  assert (Hpaced : paced cs (init 1) = true) by (vm_compute; reflexivity).
  exact (proj1 (capacity_when_paced 1 cs _ ltac:(lia) Hpaced Hexec)).
Defined.

(** X8. A release undoes an acquire: on a gate with a free slot and nobody
    waiting, [acquire] is done at once, and the [release] that follows
    gives back the gate as it was and wakes nobody. *)
Theorem acquire_release_round_trip (s : Semaphoreish) (c : Resolver) :
  (_running s < _size s)%Z ->
  _resolvers s = [] ->
  exists s1,
    acquire c s = Normal (s1, AcquireDone)
    /\ release s1 = Normal (s, None).
Proof.
  intros Hlt Hq. destruct s as [r sz q]. simpl in *. subst q.
  unfold acquire, acquire_resume. simpl.
  destruct (Z.leb_spec sz r); [lia|]. simpl.
  eexists. split; [reflexivity|]. unfold release. simpl.
  do 3 f_equal. lia.
Qed.

Lemma acquire_release_round_trip_witness :
  exists s1,
    acquire 7 {| _running := 3; _size := 16; _resolvers := [] |}
    = Normal (s1, AcquireDone)
    /\ release s1
       = Normal ({| _running := 3; _size := 16; _resolvers := [] |}, None).
Proof.
  exact (acquire_release_round_trip
           {| _running := 3; _size := 16; _resolvers := [] |} 7
           ltac:(simpl; lia) eq_refl).
Defined.

(** X9. A gate built with a capacity of zero or less admits nobody on its
    own: as long as no [release] is called, every caller is suspended, in
    the order of the calls, and [_running] stays 0. *)
Theorem no_capacity_no_admission (size : Z) (cs : list Call) (g : Run) :
  (size <= 0)%Z ->
  count_releases cs = 0 ->
  exec cs (init size) = Normal g ->
  admitted g = []
  /\ running (gate g) = 0%Z
  /\ _resolvers (gate g) = seq 0 (issued g).
Proof.
  intros Hsize Hnr Hexec.
  assert (Hgen : forall cs g g',
    (admitted g = [] /\ microtasks g = [] /\ _running (gate g) = 0%Z
     /\ (_size (gate g) <= 0)%Z
     /\ _resolvers (gate g) = seq 0 (issued g)) ->
    count_releases cs = 0 ->
    exec cs g = Normal g' ->
    admitted g' = [] /\ microtasks g' = [] /\ _running (gate g') = 0%Z
    /\ (_size (gate g') <= 0)%Z
    /\ _resolvers (gate g') = seq 0 (issued g')).
  { clear. induction cs as [|c cs IH]; intros g g' Hg; simpl.
    - by intros _ [= <-].
    - rewrite count_releases_cons.
      destruct (step c g) as [g1|e] eqn:Hstep; simpl; [|discriminate].
      intros Hc. apply IH; [|lia].
      destruct Hg as (Ha & Hm & Hr & Hs & Hq).
      destruct g as [[r sz q] n m a rel]. simpl in *. subst.
      destruct c; unfold step, acquire, release, acquire_resume in Hstep;
        simpl in *.
      + destruct (Z.leb_spec sz 0); [|lia]. simpl in Hstep.
        injection Hstep as <-.
        cbn [admitted microtasks gate _running _size _resolvers issued].
        by rewrite seq_S.
      + simpl in Hc. lia.
      + by injection Hstep as <-. }
  destruct (Hgen cs (init size) g) as (Ha & _ & Hr & _ & Hq);
    [by simpl|done|done|].
  by repeat split.
Qed.

Lemma no_capacity_no_admission_witness :
  _resolvers {| _running := 0; _size := 0; _resolvers := [0; 1] |} = seq 0 2.
Proof.
  pose (cs := [CallAcquire; RunMicrotask; CallAcquire]).
  eassert (Hexec : exec cs (init 0) = Normal _) by (vm_compute; reflexivity).
  assert (Hnr : count_releases cs = 0) by (vm_compute; reflexivity).
  exact (proj2 (proj2 (no_capacity_no_admission 0 cs _ ltac:(lia) Hnr
                         Hexec))).
Defined.

Lemma wake_order_witness :
  StronglySorted lt ([2] ++ [3; 4]).
Proof.
  eassert (Hexec : exec [CallAcquire; CallAcquire; CallAcquire; CallAcquire;
                         CallAcquire; CallRelease; CallRelease; RunMicrotask]
                     (init 1) = Normal _) by (vm_compute; reflexivity).
  exact (GateFacts.wake_order 1 _ _ Hexec).
Defined.

End GateMore.

(** ** More on the stage *)

Lemma run_app ls1 ls2 t :
  run (ls1 ++ ls2) t = run ls1 t ≫= run ls2.
Proof.
  revert t. induction ls1 as [|l ls1 IH]; intros t; simpl; [done|].
  destruct (step l t) as [t1|]; simpl; [apply IH|done].
Qed.

(** Once the completion callback has been called, only the consumer's
    pausing and resuming can still happen; the log is closed. *)
Lemma step_after_fired l t t' :
  Inv t -> Quiet t -> 0 < fired (log t) ->
  step l t = Some t' -> log t' = log t.
Proof.
  intros HI HQ Hf. unfold step.
  destruct (enabled l t) eqn:Hen; [|discriminate].
  destruct (handle l t) as [t1|e] eqn:Hh; [|discriminate].
  intros [= <-]. destruct (HQ Hf) as [Hfin Hrun].
  destruct (drained t HI Hfin Hrun) as (Hb & Hret & _).
  assert (Hpc : forall i p, pc_of i t = Some p -> p = Returned).
  { unfold pc_of. intros i p (a & Ha & ->)%fmap_Some. eauto. }
  destruct l; simpl in Hen, Hh.
  - rewrite Hfin in Hen. by rewrite andb_false_r in Hen.
  - rewrite Hfin in Hen. by rewrite andb_false_r in Hen.
  - destruct (pc_of i t) as [p|] eqn:Hp; [|discriminate].
    by rewrite (Hpc _ _ Hp) in Hen.
  - destruct (pc_of i t) as [p|] eqn:Hp; [|discriminate].
    by rewrite (Hpc _ _ Hp) in Hen.
  - destruct (pc_of i t) as [p|] eqn:Hp; [|discriminate].
    by rewrite (Hpc _ _ Hp) in Hen.
  - rewrite Hb in Hen. by rewrite andb_false_r in Hen.
  - by injection Hh as <-.
  - by injection Hh as <-.
Qed.

Lemma run_after_fired ls : forall t t',
  Inv t -> Quiet t -> 0 < fired (log t) ->
  run ls t = Some t' -> log t' = log t.
Proof.
  induction ls as [|l ls IH]; intros t t' HI HQ Hf; simpl.
  - by intros [= <-].
  - destruct (step l t) as [t1|] eqn:Hstep; [|discriminate].
    intros Hrun. pose proof (step_after_fired _ _ _ HI HQ Hf Hstep) as Hlog.
    rewrite <- Hlog. apply IH; try done.
    + by eapply step_inv.
    + by eapply step_quiet.
    + by rewrite Hlog.
Qed.

Lemma checkDone_fired t t' :
  _checkDone t = Normal t' ->
  fired (log t') <= S (fired (log t)).
Proof.
  unfold _checkDone. destruct (_ && _); intros [= <-]; simpl; readings; lia.
Qed.

Lemma flow_fired t t' :
  flow t = Normal t' -> fired (log t') <= S (fired (log t)).
Proof.
  unfold flow. destruct (buffer t) as [|ix rest]; [intros [= <-]; lia|].
  unfold emit_data, on_data.
  destruct (release _) as [[s next]|e]; simpl; [|discriminate].
  intros Hc%checkDone_fired. revert Hc.
  destruct next; simpl; rewrite <- app_assoc; readings; lia.
Qed.

(** What one step adds to the calls of the completion callback: at most
    two, and at most one unless the step is the settling of a worker. *)
Lemma step_fired l t t' :
  Inv t ->
  step l t = Some t' ->
  fired (log t') <= fired (log t) + (if l is SettleWork _ _ then 2 else 1).
Proof.
  intros HI. unfold step. destruct (enabled l t); [|discriminate].
  destruct (handle l t) as [t1|e] eqn:Hh; [|discriminate].
  intros [= <-]. destruct l; simpl in Hh.
  - unfold _transform, acquire, acquire_resume in Hh.
    destruct (_ <=? _)%Z; simpl in Hh; injection Hh as <-; simpl; readings;
      lia.
  - apply checkDone_fired in Hh. simpl in Hh. lia.
  - injection Hh as <-. simpl. readings. lia.
  - unfold _transform_after_acquire in Hh.
    destruct (calls t !! i); injection Hh as <-; simpl;
      rewrite <- ?app_assoc; readings; lia.
  - rewrite after_work_equiv in Hh by done.
    unfold after_work_marked_first in Hh.
    destruct (pc <$> calls t !! i) as [p|]; [|injection Hh as <-; lia].
    destruct p as [| | |partial w|]; try (injection Hh as <-; lia).
    destruct (flowing t && bool_decide (buffer t = [])) eqn:Hfl.
    + apply andb_prop in Hfl as [Hf Hb%bool_decide_eq_true].
      rewrite push_flowing in Hh by done.
      destruct (flow _) as [t2|e] eqn:Hflow; simpl in Hh; [|discriminate].
      apply checkDone_fired in Hh. apply flow_fired in Hflow.
      simpl in Hflow. rewrite <- app_assoc in Hflow. revert Hflow.
      readings. lia.
    + rewrite push_buffering in Hh by done. simpl in Hh.
      apply checkDone_fired in Hh. simpl in Hh.
      rewrite <- app_assoc in Hh. revert Hh. readings. lia.
  - apply flow_fired in Hh. lia.
  - injection Hh as <-. simpl. lia.
  - injection Hh as <-. simpl. lia.
Qed.

Lemma run_fired_frozen ls t t' n :
  Inv t -> Quiet t ->
  (fired (log t) = 0 \/ fired (log t) <= n) -> 2 <= n ->
  run ls t = Some t' -> fired (log t') <= n.
Proof.
  revert t. induction ls as [|l ls IH]; intros t HI HQ Hf Hn; simpl.
  - intros [= <-]. lia.
  - destruct (step l t) as [t1|] eqn:Hstep; [|discriminate].
    apply IH; [by eapply step_inv|by eapply step_quiet| |done].
    right. destruct (decide (fired (log t) = 0)) as [Hz|Hnz].
    + pose proof (step_fired _ _ _ HI Hstep). destruct l; lia.
    + rewrite (step_after_fired _ _ _ HI HQ ltac:(lia) Hstep). lia.
Qed.

(** X13. In no run is the completion callback called more than twice. *)
Theorem completion_at_most_twice (hwm : Z) (ls : list Label)
    (t : ConcurrentTransform) :
  run ls (new_ConcurrentTransform hwm) = Some t ->
  fired (log t) <= 2.
Proof.
  apply run_fired_frozen; [apply init_inv| |by left|done].
  by apply fired_zero_quiet.
Qed.

Lemma completion_at_most_twice_witness :
  match run run_final_then_settled (new_ConcurrentTransform 16) with
  | Some t => fired (log t) <= 2
  | None => False
  end.
Proof.
  destruct (run run_final_then_settled (new_ConcurrentTransform 16))
    as [t|] eqn:Hrun.
  - exact (completion_at_most_twice 16 run_final_then_settled t Hrun).
  - by vm_compute in Hrun.
Defined.

(** X14. When the first call of the completion callback comes from
    [_final] or from the reading of a buffered item, or from any step other
    than the settling of a worker, the callback is called exactly once in
    the whole run, whatever follows. *)
Theorem completion_once_unless_settling (hwm : Z) (ls ls' : list Label)
    (l : Label) (t t1 t2 : ConcurrentTransform) :
  run ls (new_ConcurrentTransform hwm) = Some t ->
  fired (log t) = 0 ->
  (forall i now, l <> SettleWork i now) ->
  step l t = Some t1 ->
  0 < fired (log t1) ->
  run ls' t1 = Some t2 ->
  fired (log t2) = 1.
Proof.
  intros Hrun Hz Hl Hstep Hf1 Hrun'.
  destruct (reachable_inv _ _ _ Hrun) as [HI HQ].
  pose proof (step_inv _ _ _ HI Hstep) as HI1.
  pose proof (step_quiet _ _ _ HI HQ Hstep) as HQ1.
  rewrite (run_after_fired _ _ _ HI1 HQ1 Hf1 Hrun').
  pose proof (step_fired _ _ _ HI Hstep) as Hb.
  destruct l; try lia. by destruct (Hl i now).
Qed.

Lemma completion_once_unless_settling_witness :
  match run run_settled_then_final (new_ConcurrentTransform 16) with
  | Some t => fired (log t) = 1
  | None => False
  end.
Proof.
  pose (ls := [Write {[ "id" := VNum 1 ]}; ResumeTransform 0 100;
               SettleWork 0 100]).
  destruct (run ls (new_ConcurrentTransform 16)) as [t|] eqn:Hrun;
    [|by vm_compute in Hrun].
  destruct (step Final t) as [t1|] eqn:Hstep.
  - assert (Hz : fired (log t) = 0).
    { vm_compute in Hrun. injection Hrun as <-. reflexivity. }
    assert (Hf : 0 < fired (log t1)).
    { vm_compute in Hrun. injection Hrun as <-.
      vm_compute in Hstep. injection Hstep as <-. vm_compute. lia. }
    change run_settled_then_final with (ls ++ [Final]).
    rewrite run_app, Hrun. simpl. rewrite Hstep.
    exact (completion_once_unless_settling 16 ls [] Final t t1 t1 Hrun Hz
             ltac:(discriminate) Hstep Hf eq_refl).
  - vm_compute in Hrun. injection Hrun as <-. by vm_compute in Hstep.
Defined.

Lemma no_call_logged lg pre post :
  fired lg = 0 -> lg <> pre ++ EvOnFinal :: post.
Proof. intros Hz ->. rewrite fired_app, fired_cons in Hz. lia. Qed.

Lemma called_none n lg : fired lg = 0 -> Called n lg.
Proof. intros Hz pre post Hlg. by destruct (no_call_logged lg pre post). Qed.

Lemma snoc_split {A} (pre post l : list A) (x : A) :
  pre ++ x :: post = l ++ [x] ->
  (pre = l /\ post = [])
  \/ exists post', post = post' ++ [x] /\ l = pre ++ x :: post'.
Proof.
  destruct post as [|y post' _] using rev_ind.
  - intros Heq. left. split; [|done].
    by apply (app_inj_tail pre l x x) in Heq as [-> _].
  - intros Heq. right.
    change (pre ++ x :: post' ++ [y]) with (pre ++ (x :: post') ++ [y]) in Heq.
    rewrite app_assoc in Heq.
    apply app_inj_tail in Heq as [<- ->]. eauto.
Qed.

Lemma all_served_call n lg :
  all_served n lg -> all_served n (lg ++ [EvOnFinal]).
Proof. unfold all_served. by readings. Qed.

Lemma drained_served u :
  Inv u -> onFinal u = true -> _running (_semaphore u) = 0%Z ->
  all_served (length (calls u)) (log u).
Proof.
  intros HI Hfin Hrun. destruct (drained u HI Hfin Hrun) as (_ & _ & Hp & Hs).
  split; [done|]. split; [done|].
  pose proof (inv_running _ HI) as Hr. rewrite Hrun in Hr. lia.
Qed.

(** [_checkDone] calls the callback only on a state that shows all
    activations served, and leaves such a state behind. *)
Lemma checkDone_called n u t' :
  Called n (log u) ->
  (onFinal u = true -> _running (_semaphore u) = 0%Z ->
   all_served n (log u)) ->
  _checkDone u = Normal t' ->
  Called n (log t')
  /\ (onFinal t' = true -> _running (_semaphore t') = 0%Z ->
      all_served n (log t')).
Proof.
  intros HC Hd. unfold _checkDone.
  destruct (_ && _) eqn:Hc; intros [= <-]; [|done].
  apply andb_prop in Hc as [Hr%Z.eqb_eq Hf]. unfold running in Hr.
  specialize (Hd Hf Hr). simpl. split.
  - intros pre post Hlg. symmetry in Hlg.
    apply snoc_split in Hlg as [[-> ->]|(post' & -> & Hlg)]; [done|].
    by apply (HC pre post').
  - intros _ _. by apply all_served_call.
Qed.

Lemma flow_called t t' :
  Inv t -> fired (log t) = 0 -> flow t = Normal t' ->
  length (calls t') = length (calls t)
  /\ Called (length (calls t)) (log t')
  /\ (onFinal t' = true -> _running (_semaphore t') = 0%Z ->
      all_served (length (calls t)) (log t')).
Proof.
  intros HI Hz. unfold flow. destruct (buffer t) as [|ix rest] eqn:Hbuf.
  - intros [= <-]. split; [done|]. split; [by apply called_none|].
    by apply drained_served.
  - unfold emit_data, on_data. simpl.
    destruct (release (_semaphore t)) as [[s next]|e] eqn:Hrel; simpl;
      [|discriminate].
    pose proof (delivered_inv ix rest t s next HI Hbuf Hrel) as HIu.
    set (u := wake next _) in *.
    assert (Hlen : length (calls u) = length (calls t)).
    { subst u. destruct next; simpl; [apply length_alter|done]. }
    assert (Hzu : fired (log u) = 0).
    { subst u. destruct next; simpl; rewrite <- app_assoc; by readings. }
    intros Hcd. split.
    { apply checkDone_calls in Hcd. by rewrite Hcd. }
    rewrite <- Hlen.
    apply (checkDone_called _ u t'); [by apply called_none| |done].
    by apply drained_served.
Qed.

Lemma step_called l t t' :
  Inv t -> Quiet t -> Called (length (calls t)) (log t) ->
  step l t = Some t' ->
  Called (length (calls t')) (log t').
Proof.
  intros HI HQ HC Hstep.
  destruct (decide (fired (log t) = 0)) as [Hz|Hnz].
  - revert Hstep. unfold step.
    destruct (enabled l t) eqn:Hen; [|discriminate].
    destruct (handle l t) as [t1|e] eqn:Hh; [|discriminate].
    intros [= <-]. destruct l; simpl in Hen, Hh.
    + unfold _transform, acquire, acquire_resume in Hh.
      destruct (_ <=? _)%Z; simpl in Hh; injection Hh as <-;
        apply called_none; simpl; by readings.
    + apply andb_prop in Hen as [Hw%negb_true_iff _].
      pose proof (final_inv t HI Hw) as HIu.
      pose proof (checkDone_calls _ _ Hh) as Hcalls. rewrite Hcalls.
      eapply checkDone_called; [| |exact Hh].
      * by apply called_none.
      * by apply (drained_served _ HIu).
    + injection Hh as <-. apply called_none. simpl. by readings.
    + unfold _transform_after_acquire in Hh.
      destruct (calls t !! i); injection Hh as <-;
        apply called_none; simpl; [|done].
      rewrite <- app_assoc. by readings.
    + rewrite after_work_equiv in Hh by done.
      unfold after_work_marked_first in Hh.
      destruct (pc <$> calls t !! i) as [p|] eqn:Hpc;
        [|injection Hh as <-; by apply called_none].
      destruct p as [| | |partial w|];
        try (injection Hh as <-; by apply called_none).
      apply fmap_Some in Hpc as (a0 & Ha0 & Hpc0). symmetry in Hpc0.
      set (r := match w with Immediate v => v | Deferred => now end) in Hh.
      pose proof (settled_inv i r a0 partial w t HI Ha0 Hpc0) as HS.
      destruct (flowing t && bool_decide (buffer t = [])) eqn:Hfl.
      * apply andb_prop in Hfl as [Hf Hb%bool_decide_eq_true].
        rewrite push_flowing in Hh by done.
        destruct (flow _) as [t2|e] eqn:Hflow; simpl in Hh; [|discriminate].
        unfold settled in HS. simpl in HS. rewrite Hb in HS.
        apply flow_called in Hflow as (Hlen & HC2 & Hd2); [|done|].
        2:{ simpl. rewrite <- app_assoc. by readings. }
        pose proof (checkDone_calls _ _ Hh) as Hcalls.
        rewrite Hcalls, Hlen.
        by destruct (checkDone_called _ _ _ HC2 Hd2 Hh).
      * rewrite push_buffering in Hh by done. simpl in Hh.
        pose proof (checkDone_calls _ _ Hh) as Hcalls. rewrite Hcalls.
        eapply checkDone_called; [| |exact Hh].
        -- apply called_none. simpl. rewrite <- app_assoc. by readings.
        -- by apply (drained_served _ HS).
    + by destruct (flow_called _ _ HI Hz Hh) as (-> & ? & _).
    + injection Hh as <-. by apply called_none.
    + injection Hh as <-. by apply called_none.
  - rewrite (step_after_fired _ _ _ HI HQ ltac:(lia) Hstep).
    destruct (HQ ltac:(lia)) as [Hfin _].
    pose proof (step_chunks _ _ _ HI Hstep) as Hch.
    apply (f_equal length) in Hch.
    rewrite length_app, !length_fmap in Hch.
    assert (Hw : written [l] = []).
    { destruct l; try done. revert Hstep. unfold step. simpl.
      by rewrite Hfin, andb_false_r. }
    rewrite Hw in Hch. simpl in Hch. by rewrite Hch, Nat.add_0_r.
Qed.

Lemma run_called ls : forall t t',
  Inv t -> Quiet t -> Called (length (calls t)) (log t) ->
  run ls t = Some t' ->
  Called (length (calls t')) (log t').
Proof.
  induction ls as [|l ls IH]; intros t t' HI HQ HC; simpl.
  - by intros [= <-].
  - destruct (step l t) as [t1|] eqn:Hstep; [|discriminate].
    apply IH; [by eapply step_inv|by eapply step_quiet|by eapply step_called].
Qed.

(** X12. Every call of the completion callback comes after [_final] has
    stored it and after every chunk accepted in the run has been served:
    in the log up to any call of the callback, each activation of
    [_transform] has pushed exactly once, the items emitted as 'data' are
    the items pushed, and there have been as many releases as
    acquisitions. *)
Theorem completion_after_all_served (hwm : Z) (ls : list Label)
    (t : ConcurrentTransform) (pre post : list Event) :
  run ls (new_ConcurrentTransform hwm) = Some t ->
  log t = pre ++ EvOnFinal :: post ->
  onFinal t = true
  /\ (pushed pre).*1 ≡ₚ seq 0 (length (written ls))
  /\ sunk pre = pushed pre
  /\ releases pre = length (acquired pre).
Proof.
  intros Hrun Hlog. destruct (reachable_inv _ _ _ Hrun) as [HI HQ].
  assert (Hf : 0 < fired (log t)).
  { rewrite Hlog, fired_app, fired_cons. lia. }
  split; [by destruct (HQ Hf)|].
  rewrite <- (reachable_chunks _ _ _ Hrun), length_fmap.
  assert (HC : Called (length (calls t)) (log t)).
  { apply (run_called ls (new_ConcurrentTransform hwm) t (init_inv hwm));
      [by apply fired_zero_quiet|by apply called_none|done]. }
  exact (HC pre post Hlog).
Qed.

Lemma completion_after_all_served_witness :
  match run run_final_then_settled (new_ConcurrentTransform 16) with
  | Some t =>
      exists pre post,
        log t = pre ++ EvOnFinal :: post
        /\ post = [EvOnFinal]
        /\ (pushed pre).*1 ≡ₚ seq 0 (length (written run_final_then_settled))
        /\ sunk pre = pushed pre
  | None => False
  end.
Proof.
  destruct (run run_final_then_settled (new_ConcurrentTransform 16))
    as [t|] eqn:Hrun; [|by vm_compute in Hrun].
  assert (Hlog : exists pre, log t = pre ++ EvOnFinal :: [EvOnFinal]).
  { vm_compute in Hrun. injection Hrun as <-. simpl.
    by eexists [_; _; _; _; _; _; _]. }
  destruct Hlog as [pre Hlog]. exists pre, [EvOnFinal].
  destruct (completion_after_all_served 16 _ t pre _ Hrun Hlog)
    as (_ & H1 & H2 & _).
  done.
Defined.

Lemma pipeline_capacity_witness :
  match run run_paused (new_ConcurrentTransform 16) with
  | Some t => (0 <= running (_semaphore t) <= 16)%Z
  | None => False
  end.
Proof.
  destruct (run run_paused (new_ConcurrentTransform 16)) as [t|] eqn:Hrun.
  - exact (pipeline_capacity 16 run_paused t ltac:(lia) Hrun).
  - by vm_compute in Hrun.
Defined.

Lemma run_capped ls : forall t t',
  Inv t -> Capped t -> run ls t = Some t' ->
  Capped t' /\ _size (_semaphore t') = _size (_semaphore t).
Proof.
  induction ls as [|l ls IH]; intros t t' HI HC; simpl.
  - by intros [= <-].
  - destruct (step l t) as [t1|] eqn:Hstep; [|discriminate].
    intros Hrun. rewrite <- (step_size _ _ _ HI Hstep).
    apply IH; [by eapply step_inv|by eapply step_capped|done].
Qed.

(** An activation past its acquisition has its acquisition in the log. *)
Lemma acquired_logged t i a :
  Inv t -> calls t !! i = Some a -> ~ pre_callback (pc a) ->
  i ∈ acquired (log t).
Proof.
  intros HI Ha Hp.
  assert (He : EvAcquired i ∈ events_of i (log t)).
  { pose proof (inv_trail _ HI _ _ Ha) as Htr. unfold trail in Htr.
    destruct (pc a); simpl in Hp; try tauto.
    - rewrite Htr. apply list_elem_of_here.
    - destruct Htr as [r ->]. apply list_elem_of_here. }
  apply list_elem_of_In, List.filter_In in He as [He _].
  apply list_elem_of_omap. exists (EvAcquired i). by rewrite list_elem_of_In.
Qed.

Lemma pushed_within_acquired t :
  Inv t -> length (pushed (log t)) <= length (acquired (log t)).
Proof.
  intros HI.
  assert (Hsub : (pushed (log t)).*1 ⊆+ acquired (log t)).
  { apply NoDup_submseteq; [apply HI|]. intros i Hi.
    apply pushed_fst_elem in Hi as [x Hx].
    destruct (calls t !! i) as [a|] eqn:Ha.
    - apply (acquired_logged t i a HI Ha).
      pose proof (inv_trail _ HI _ _ Ha) as Htr. unfold trail in Htr.
      destruct (pc a); simpl; try tauto;
        rewrite Htr in Hx; apply list_elem_of_In in Hx; simpl in Hx;
        intuition discriminate.
    - apply lookup_ge_None in Ha. rewrite (inv_fresh _ HI) in Hx by done.
      by apply not_elem_of_nil in Hx. }
  apply submseteq_length in Hsub. by rewrite length_fmap in Hsub.
Qed.

Lemma calls_within_acquired t :
  Inv t -> length (calls t) <= S (length (acquired (log t))).
Proof.
  intros HI.
  assert (Hsub : seq 0 (pred (length (calls t))) ⊆+ acquired (log t)).
  { apply NoDup_submseteq; [apply NoDup_seq|]. intros i Hi.
    apply elem_of_seq in Hi.
    destruct (lookup_lt_is_Some_2 (calls t) i) as [a Ha]; [lia|].
    apply (acquired_logged t i a HI Ha). intros Hp.
    destruct (inv_serial _ HI _ _ Ha Hp). lia. }
  apply submseteq_length in Hsub. rewrite length_seq in Hsub. lia.
Qed.

(** X11. Bounded buffering.  In a pipeline with [0 <= hwm], at every
    point of every run the readable side buffers at most [hwm] items, and
    the chunks accepted and not yet emitted downstream are at most
    [hwm + 1]: the gate's worth, and one more waiting at the gate. *)
Theorem buffering_bounded (hwm : Z) (ls : list Label)
    (t : ConcurrentTransform) :
  (0 <= hwm)%Z ->
  run ls (new_ConcurrentTransform hwm) = Some t ->
  (Z.of_nat (length (buffer t)) <= hwm)%Z
  /\ (Z.of_nat (length (calls t)) - Z.of_nat (length (sunk (log t)))
      <= hwm + 1)%Z.
Proof.
  intros Hhwm Hrun.
  destruct (reachable_inv _ _ _ Hrun) as [HI _].
  destruct (run_capped ls _ t (init_inv hwm)) as [[Hle _] Hsz]; [|done|].
  { split; simpl; [done|]. intros i a Ha. by rewrite lookup_nil in Ha. }
  simpl in Hsz. rewrite Hsz in Hle.
  pose proof (inv_running _ HI) as Hr.
  pose proof (inv_releases _ HI) as Hrel.
  pose proof (f_equal length (inv_buffer _ HI)) as Hb.
  rewrite length_app in Hb.
  pose proof (pushed_within_acquired t HI).
  pose proof (calls_within_acquired t HI).
  lia.
Qed.

Lemma buffering_bounded_witness :
  match run (run_paused ++ [SettleWork 0 101]) (new_ConcurrentTransform 16) with
  | Some t => (Z.of_nat (length (buffer t)) <= 16)%Z
  | None => False
  end.
Proof.
  destruct (run (run_paused ++ [SettleWork 0 101]) (new_ConcurrentTransform 16))
    as [t|] eqn:Hrun.
  - exact (proj1 (buffering_bounded 16 _ t ltac:(lia) Hrun)).
  - by vm_compute in Hrun.
Defined.

Lemma checkDone_writing t t' :
  _checkDone t = Normal t' -> writing t' = writing t.
Proof. unfold _checkDone. by destruct (_ && _); intros [= <-]. Qed.

(** X15. Back-pressure.  A chunk written while the gate is full is not
    acknowledged: as long as no step emits 'data' (workers may settle and
    their items be buffered meanwhile), its [callback()] has not been
    called, the writable side still waits, and neither a further chunk nor
    [_final] can be handed to the stage. *)
Theorem full_gate_holds_writer (hwm : Z) (ls ls' : list Label) (c : Item)
    (t t1 t2 : ConcurrentTransform) :
  run ls (new_ConcurrentTransform hwm) = Some t ->
  (_size (_semaphore t) <= running (_semaphore t))%Z ->
  step (Write c) t = Some t1 ->
  no_emission ls' t1 = true ->
  run ls' t1 = Some t2 ->
  writing t2 = true
  /\ (EvCallback (length (calls t)) ∉ log t2)
  /\ (forall c', step (Write c') t2 = None)
  /\ step Final t2 = None.
Proof.
  intros Hrun Hfull Hstep Hquiet Hrun'.
  destruct (reachable_inv _ _ _ Hrun) as [HI _].
  pose proof (step_inv _ _ _ HI Hstep) as HI1.
  set (n := length (calls t)).
  assert (H1 : writing t1 = true
               /\ (pc <$> calls t1 !! n) = Some InAcquire
               /\ length (calls t1) = S n).
  { revert Hstep. unfold step. simpl.
    destruct (negb (writing t) && negb (onFinal t)); [|discriminate].
    unfold _transform, acquire. unfold running in Hfull.
    destruct (Z.leb_spec (_size (_semaphore t)) (_running (_semaphore t)));
      [|lia].
    simpl. intros [= <-]. simpl. split; [done|].
    rewrite length_app. simpl. split; [|lia].
    by rewrite list_lookup_middle. }
  assert (Hgen : forall ls' t1 t2,
    Inv t1 ->
    (writing t1 = true /\ (pc <$> calls t1 !! n) = Some InAcquire
     /\ length (calls t1) = S n) ->
    no_emission ls' t1 = true ->
    run ls' t1 = Some t2 ->
    Inv t2 /\ writing t2 = true /\ (pc <$> calls t2 !! n) = Some InAcquire
    /\ length (calls t2) = S n).
  { clear. induction ls' as [|l ls' IH]; intros t1 t2 HI1 H1.
    - by intros _ [= <-].
    - cbn [no_emission run].
      destruct (step l t1) as [t1'|] eqn:Hstep; [|by intros _ ?].
      intros [Hl Hq]%andb_prop. apply negb_true_iff in Hl.
      apply IH; [by eapply step_inv| |done].
      destruct H1 as (Hw & Hpc & Hlen).
      assert (Hpre : forall i p, pc_of i t1 = Some p -> pre_callback p ->
                p = InAcquire).
      { unfold pc_of. intros i p (a & Ha & ->)%fmap_Some Hp.
        destruct (inv_serial _ HI1 _ _ Ha Hp) as [_ Hi].
        assert (i = n) as -> by lia. rewrite Ha in Hpc. simpl in Hpc.
        congruence. }
      revert Hstep. unfold step.
      destruct (enabled l t1) eqn:Hen; [|discriminate].
      destruct l; cbn [emits] in Hl; cbn [enabled] in Hen;
        try discriminate; cbn [handle].
      + by rewrite Hw in Hen.
      + by rewrite Hw in Hen.
      + destruct (pc_of i t1) as [p|] eqn:Hp; [|discriminate].
        destruct p; try discriminate. by specialize (Hpre _ _ Hp I).
      + destruct (pc_of i t1) as [p|] eqn:Hp; [|discriminate].
        destruct p; try discriminate. by specialize (Hpre _ _ Hp I).
      + rewrite after_work_equiv by done. unfold after_work_marked_first.
        unfold pc_of in Hen.
        destruct (pc <$> calls t1 !! i) as [p|] eqn:Hp; [|discriminate].
        destruct p as [| | |partial w|]; try discriminate.
        assert (Hne : i <> n).
        { intros ->. rewrite Hp in Hpc. discriminate. }
        rewrite push_buffering by done. cbn [cbind].
        destruct (_checkDone _) as [u|e] eqn:Hcd; [|discriminate].
        intros [= <-].
        pose proof (checkDone_writing _ _ Hcd) as Hwu. cbn in Hwu.
        apply checkDone_calls in Hcd. rewrite Hwu, Hcd. cbn.
        by rewrite list_lookup_alter_ne, length_alter.
      + by intros [= <-].
      + by intros [= <-]. }
  destruct (Hgen ls' t1 t2 HI1 H1 Hquiet Hrun') as (HI2 & Hw & Hpc & Hlen).
  split; [done|]. split; [|split].
  - apply fmap_Some in Hpc as (a & Ha & Hp).
    pose proof (inv_trail _ HI2 _ _ Ha) as Htr. unfold trail in Htr.
    rewrite <- Hp in Htr. intros Hin.
    apply (events_of_elem n) in Hin; [|simpl; by apply bool_decide_eq_true].
    rewrite Htr in Hin. by apply not_elem_of_nil in Hin.
  - intros c'. unfold step. simpl. by rewrite Hw.
  - unfold step. simpl. by rewrite Hw.
Qed.

Lemma full_gate_holds_writer_witness :
  match run [Write {[ "id" := VNum 0 ]}; ResumeTransform 0 100;
             Write {[ "id" := VNum 1 ]}; Pause; SettleWork 0 101]
          (new_ConcurrentTransform 1) with
  | Some t => writing t = true /\ (EvCallback 1 ∉ log t)
  | None => False
  end.
Proof.
  pose (ls := [Write {[ "id" := VNum 0 ]}; ResumeTransform 0 100]).
  pose (ls' := [Pause; SettleWork 0 101]).
  destruct (run ls (new_ConcurrentTransform 1)) as [t|] eqn:Hrun;
    [|by vm_compute in Hrun].
  destruct (step (Write {[ "id" := VNum 1 ]}) t) as [t1|] eqn:Hstep;
    [|vm_compute in Hrun; injection Hrun as <-; by vm_compute in Hstep].
  destruct (run ls' t1) as [t2|] eqn:Hrun2;
    [|vm_compute in Hrun; injection Hrun as <-;
      vm_compute in Hstep; injection Hstep as <-; by vm_compute in Hrun2].
  assert (Hfull : (_size (_semaphore t) <= running (_semaphore t))%Z).
  { vm_compute in Hrun. injection Hrun as <-. vm_compute. discriminate. }
  assert (Hlen : length (calls t) = 1).
  { vm_compute in Hrun. injection Hrun as <-. reflexivity. }
  assert (Hne : no_emission ls' t1 = true).
  { vm_compute in Hrun. injection Hrun as <-.
    vm_compute in Hstep. injection Hstep as <-. by vm_compute. }
  change [Write {[ "id" := VNum 0 ]}; ResumeTransform 0 100;
          Write {[ "id" := VNum 1 ]}; Pause; SettleWork 0 101]
    with (ls ++ Write {[ "id" := VNum 1 ]} :: ls').
  rewrite run_app, Hrun. cbn [mbind option_bind].
  change (run (Write {[ "id" := VNum 1 ]} :: ls') t)
    with (match step (Write {[ "id" := VNum 1 ]}) t with
          | Some t' => run ls' t'
          | None => None
          end).
  rewrite Hstep, Hrun2. rewrite <- Hlen.
  destruct (full_gate_holds_writer 1 ls ls' _ t t1 t2 Hrun Hfull Hstep
              Hne Hrun2) as (H1 & H2 & _).
  exact (conj H1 H2).
Defined.

(** *** Schedules *)

Lemma alter_last {A} (f : A -> A) (l : list A) (x : A) :
  alter f (length l) (l ++ [x]) = l ++ [f x].
Proof. by rewrite alter_app_r_alt, Nat.sub_diag by lia. Qed.

Lemma write_admitted c t :
  writing t = false -> onFinal t = false ->
  (_running (_semaphore t) < _size (_semaphore t))%Z ->
  step (Write c) t
  = Some {| onFinal := false;
            _semaphore := {| _running := _running (_semaphore t) + 1;
                             _size := _size (_semaphore t);
                             _resolvers := _resolvers (_semaphore t) |};
            calls := calls t ++ [{| chunk := c; pc := AfterAcquire |}];
            writing := true; flowing := flowing t; buffer := buffer t;
            log := log t ++ [EvAcquired (length (calls t))] |}.
Proof.
  intros Hw Hf Hlt. unfold step. simpl. rewrite Hw, Hf. simpl.
  unfold _transform, acquire, acquire_resume.
  destruct (Z.leb_spec (_size (_semaphore t)) (_running (_semaphore t)));
    [lia|]. simpl. by rewrite Hf.
Qed.

Lemma resume_admitted c now t cs0 :
  calls t = cs0 ++ [{| chunk := c; pc := AfterAcquire |}] ->
  step (ResumeTransform (length cs0) now) t
  = Some {| onFinal := onFinal t; _semaphore := _semaphore t;
            calls := cs0 ++ [{| chunk := c;
                                pc := AwaitWork c
                                        (work (get_prop "id" c) now) |}];
            writing := false; flowing := flowing t; buffer := buffer t;
            log := log t ++ [EvCallback (length cs0); EvWork (length cs0)] |}.
Proof.
  intros Hc. unfold step, enabled, pc_of. rewrite Hc, list_lookup_middle by done.
  simpl. unfold _transform_after_acquire.
  rewrite Hc, list_lookup_middle by done.
  unfold set_pc, emit, callback. simpl. rewrite Hc, alter_last. simpl.
  by rewrite <- app_assoc.
Qed.

Lemma admit_all_runs cs clock : forall t,
  writing t = false -> onFinal t = false ->
  (_running (_semaphore t) + Z.of_nat (length cs)
   <= _size (_semaphore t))%Z ->
  exists t',
    run (admit_all (length (calls t)) cs clock) t = Some t'
    /\ calls t'
       = calls t
         ++ imap (fun i c =>
                    {| chunk := c;
                       pc := AwaitWork c
                               (work (get_prop "id" c)
                                  (clock (length (calls t) + i))) |}) cs
    /\ _running (_semaphore t')
       = (_running (_semaphore t) + Z.of_nat (length cs))%Z
    /\ _size (_semaphore t') = _size (_semaphore t)
    /\ _resolvers (_semaphore t') = _resolvers (_semaphore t)
    /\ writing t' = false /\ onFinal t' = false.
Proof.
  induction cs as [|c cs IH]; intros t Hw Hf Hcap.
  - exists t. simpl. rewrite app_nil_r. repeat split; try done. lia.
  - simpl in Hcap. cbn [admit_all run].
    rewrite write_admitted by (done || lia).
    erewrite resume_admitted by reflexivity.
    match goal with |- context [run _ ?t1] => set (t1' := t1) end.
    destruct (IH t1') as (t' & Hrun & Hcalls & Hr & Hs & Hq & Hw' & Hf');
      [done|done|simpl; lia|].
    exists t'. subst t1'. simpl in *.
    rewrite length_app in Hrun. simpl in Hrun.
    rewrite Nat.add_1_r in Hrun. rewrite length_app in Hcalls.
    simpl in Hcalls. split; [exact Hrun|].
    split; [|repeat split; try done; rewrite Hr; lia].
    rewrite Hcalls, <- app_assoc. f_equal. simpl.
    rewrite Nat.add_0_r. f_equal. apply imap_ext.
    intros i x _. simpl.
    by replace (length (calls t) + 1 + i) with (length (calls t) + S i)
      by lia.
Qed.

(** X16. Concurrency up to the capacity.  Because [callback()] is called
    before the worker is awaited, as many chunks whose worker defers to the
    timer (ids that are multiples of 8) as the gate has slots can be
    written one after the other while their timers are pending: all their
    workers are then outstanding at once and the gate counts them all.
    With the gate filled this way, the next chunk written is suspended in
    [acquire] and its write stays unacknowledged. *)
Theorem workers_up_to_capacity (hwm : Z) (cs : list Item) (clock : nat -> Z) :
  Forall (fun c => divisible_by_8 (get_prop "id" c) = true) cs ->
  (Z.of_nat (length cs) <= hwm)%Z ->
  exists t,
    run (admit_all 0 cs clock) (new_ConcurrentTransform hwm) = Some t
    /\ running (_semaphore t) = Z.of_nat (length cs)
    /\ chunk <$> calls t = cs
    /\ (forall i a, calls t !! i = Some a ->
          pc a = AwaitWork (chunk a) Deferred)
    /\ (Z.of_nat (length cs) = hwm ->
        forall c, exists t',
          step (Write c) t = Some t'
          /\ (pc <$> calls t' !! length cs) = Some InAcquire
          /\ writing t' = true
          /\ running (_semaphore t') = hwm).
Proof.
  intros Hdefer Hlen.
  destruct (admit_all_runs cs clock (new_ConcurrentTransform hwm))
    as (t & Hrun & Hcalls & Hr & Hs & Hq & Hw & Hf); [done|done|simpl; lia|].
  simpl in *. exists t. split; [exact Hrun|]. split; [unfold running; lia|].
  split; [|split].
  - rewrite Hcalls. apply list_eq. intros i.
    rewrite list_lookup_fmap, list_lookup_imap. by destruct (cs !! i).
  - intros i a. rewrite Hcalls, list_lookup_imap.
    intros (c & Hc & ->)%fmap_Some. simpl. unfold work.
    rewrite Forall_forall in Hdefer.
    by rewrite (Hdefer c) by (by eapply list_elem_of_lookup_2).
  - intros Hfull c. unfold step. simpl. rewrite Hw, Hf. simpl.
    unfold _transform, acquire.
    destruct (Z.leb_spec (_size (_semaphore t)) (_running (_semaphore t)));
      [|lia].
    simpl. eexists. split; [reflexivity|]. simpl.
    assert (Hl : length (calls t) = length cs).
    { by rewrite Hcalls, length_imap. }
    rewrite <- Hl, list_lookup_middle by done. unfold running. simpl.
    repeat split; try done. lia.
Qed.

Lemma workers_up_to_capacity_witness :
  exists t,
    run (admit_all 0 [ {[ "id" := VNum 0 ]}; {[ "id" := VNum 8 ]} ]
           (fun _ => 100%Z)) (new_ConcurrentTransform 2) = Some t
    /\ running (_semaphore t) = 2%Z.
Proof.
  destruct (workers_up_to_capacity 2
              [ {[ "id" := VNum 0 ]}; {[ "id" := VNum 8 ]} ]
              (fun _ => 100%Z)
              ltac:(by repeat constructor) ltac:(simpl; lia))
    as (t & Hrun & Hr & _).
  exists t. split; [exact Hrun|exact Hr].
Defined.

Lemma settle_flowing c w now t cs0 :
  calls t = cs0 ++ [{| chunk := c; pc := AwaitWork c w |}] ->
  onFinal t = false -> flowing t = true -> buffer t = [] ->
  _resolvers (_semaphore t) = [] ->
  let r := match w with Immediate v => v | Deferred => now end in
  step (SettleWork (length cs0) now) t
  = Some {| onFinal := false;
            _semaphore := {| _running := _running (_semaphore t) - 1;
                             _size := _size (_semaphore t);
                             _resolvers := [] |};
            calls := cs0 ++ [{| chunk := c; pc := Returned |}];
            writing := writing t; flowing := true; buffer := [];
            log := log t ++ [EvSettled (length cs0) r;
                             EvPush (length cs0) (enrich r c);
                             EvData (length cs0) (enrich r c);
                             EvRelease] |}.
Proof.
  intros Hc Hf Hfl Hb Hq r. unfold step, enabled, pc_of.
  rewrite Hc, list_lookup_middle by done. simpl.
  unfold _transform_after_work. rewrite Hc, list_lookup_middle by done.
  simpl. fold r. unfold push, emit. simpl. rewrite Hfl, Hb. simpl.
  unfold emit_data, on_data, release, emit, set_semaphore. simpl.
  rewrite Hq. simpl.
  unfold _checkDone, emit. simpl. rewrite Hf, andb_false_r. simpl.
  rewrite andb_false_r. simpl. unfold set_pc. simpl.
  rewrite Hc, alter_last. simpl.
  by rewrite <- !app_assoc.
Qed.

Lemma one_by_one_runs cs clock : forall t,
  writing t = false -> onFinal t = false ->
  flowing t = true -> buffer t = [] ->
  _resolvers (_semaphore t) = [] ->
  (_running (_semaphore t) < _size (_semaphore t))%Z ->
  exists t',
    run (one_by_one (length (calls t)) cs clock) t = Some t'
    /\ writing t' = false /\ onFinal t' = false
    /\ flowing t' = true /\ buffer t' = []
    /\ _semaphore t' = _semaphore t
    /\ fired (log t') = fired (log t)
    /\ sunk (log t')
       = sunk (log t)
         ++ imap (fun i c => (length (calls t) + i,
                              enrich (clock (length (calls t) + i)) c)) cs.
Proof.
  induction cs as [|c cs IH]; intros t Hw Hf Hfl Hb Hq Hlt.
  - exists t. simpl. rewrite app_nil_r. by repeat split.
  - cbn [one_by_one run].
    rewrite write_admitted by done.
    erewrite resume_admitted by reflexivity.
    erewrite settle_flowing by (reflexivity || done).
    set (r := match work (get_prop "id" c) (clock (length (calls t))) with
              | Immediate v => v
              | Deferred => clock (length (calls t))
              end).
    assert (Hr : r = clock (length (calls t))).
    { subst r. unfold work. by destruct (divisible_by_8 _). }
    match goal with |- context [run _ ?t1] => set (t1' := t1) end.
    destruct (IH t1') as (t' & Hrun & Hw' & Hf' & Hfl' & Hb' & Hs & Hfi & Hsu);
      try done.
    { simpl. lia. }
    exists t'. subst t1'. simpl in *.
    rewrite length_app in Hrun, Hsu. simpl in Hrun, Hsu.
    rewrite Nat.add_1_r in Hrun. split; [exact Hrun|].
    repeat split; try done.
    + rewrite Hs. destruct (_semaphore t) as [r0 sz q]. simpl in *.
      subst q. f_equal. lia.
    + rewrite Hfi. rewrite <- !app_assoc. by readings.
    + rewrite Hsu. rewrite <- !app_assoc. readings. simpl.
      rewrite <- app_assoc. f_equal. simpl. rewrite Hr.
      f_equal. apply imap_ext. intros i x _. simpl.
      by replace (length (calls t) + 1 + i) with (length (calls t) + S i)
        by lia.
Qed.

(** X17. A run that completes exists for every input: in a pipeline with
    at least one slot, writing the chunks one after the other, each one's
    worker settled before the next is written, and then finishing, is a
    run of the stage; it emits the enriched items in the order of the
    chunks, each with the clock value of its worker as [changedAt], and
    calls the completion callback exactly once. *)
Theorem served_in_turn (hwm : Z) (cs : list Item) (clock : nat -> Z) :
  (1 <= hwm)%Z ->
  exists t,
    run (one_by_one 0 cs clock ++ [Final]) (new_ConcurrentTransform hwm)
    = Some t
    /\ written (one_by_one 0 cs clock ++ [Final]) = cs
    /\ sunk (log t) = imap (fun i c => (i, enrich (clock i) c)) cs
    /\ fired (log t) = 1.
Proof.
  intros Hhwm.
  destruct (one_by_one_runs cs clock (new_ConcurrentTransform hwm))
    as (t & Hrun & Hw & Hf & Hfl & Hb & Hs & Hfi & Hsu); try done.
  { simpl. lia. }
  simpl in *. rewrite run_app, Hrun. simpl.
  unfold step. simpl. rewrite Hw, Hf. simpl.
  unfold _final, _checkDone. simpl. rewrite Hs. simpl.
  eexists. split; [reflexivity|]. simpl. readings. split; [|by rewrite Hfi].
  assert (Hgen : forall k, written (one_by_one k cs clock) = cs).
  { clear. induction cs as [|c cs IH]; intros k; [done|].
    simpl. unfold written in *. simpl. by rewrite IH. }
  unfold written in *. by rewrite omap_app, Hgen, app_nil_r.
Qed.

Lemma served_in_turn_witness :
  exists t,
    run (one_by_one 0 [ {[ "id" := VNum 8 ]}; {[ "id" := VNum 9 ]} ]
           (fun i => Z.of_nat (100 + i)) ++ [Final])
      (new_ConcurrentTransform 1) = Some t
    /\ fired (log t) = 1.
Proof.
  destruct (served_in_turn 1 [ {[ "id" := VNum 8 ]}; {[ "id" := VNum 9 ]} ]
              (fun i => Z.of_nat (100 + i)) ltac:(lia))
    as (t & Hrun & _ & _ & Hf).
  exists t. split; [exact Hrun|exact Hf].
Defined.
